(** * k8s-pretty-logger: the live log stream manager

    A shallow embedding of [src/api/kubernetes_client.py]: the log line
    parsing done inside [log_streaming_thread] (lines 194-226), the worker
    loop of [log_streaming_thread] (lines 162-252), [stream_pod_logs]
    (lines 156-259) and [stop_log_stream] (lines 261-268).

    Python [str] values are Rocq strings (characters are code points below
    256), Python [int] offsets are [Z], the [active_streams] dict is a
    [gmap] from pod names to thread identities. *)

From Stdlib Require Import ZArith Lia ZifyBool List Bool Ascii String.
From Stdlib Require Import DecimalString.
From stdpp Require Import gmap strings list.

Local Open Scope string_scope.
Local Open Scope Z_scope.

(** ** Python string primitives used by the parser *)

Module PyStr.

(** [len(s)] *)
Definition len (s : string) : Z := Z.of_nat (String.length s).

(** Truthiness of a [str]: the empty string is falsy. *)
Definition truthy (s : string) : bool :=
  match s with
  | EmptyString => false
  | String _ _ => true
  end.

(** A slice bound is brought into [0..n]: a negative bound counts from
    the end, and every bound is clipped. *)
Definition clip (n i : Z) : Z :=
  if i <? 0 then Z.max 0 (i + n) else Z.min i n.

(** [s[lo:hi]] *)
Definition slice (s : string) (lo hi : Z) : string :=
  let n := len s in
  let lo' := clip n lo in
  let hi' := clip n hi in
  substring (Z.to_nat lo') (Z.to_nat (hi' - lo')) s.

(** [s[:hi]] *)
Definition slice_to (s : string) (hi : Z) : string := slice s 0 hi.

(** [s[lo:]] *)
Definition slice_from (s : string) (lo : Z) : string := slice s lo (len s).

(** [s.find(sub, start)]: the lowest offset at or after [start] where
    [sub] occurs, or [-1]. *)
Definition find (s sub : string) (start : Z) : Z :=
  let start' := if start <? 0 then Z.max 0 (start + len s) else start in
  if len s - start' <? len sub then -1
  else
    match index (Z.to_nat start') sub s with
    | Some k => Z.of_nat k
    | None => -1
    end.

(** [sub in s] *)
Definition contains (sub s : string) : bool :=
  match index 0 sub s with
  | Some _ => true
  | None => false
  end.

(** Exceptions the string operations of the parser can raise. *)
Inductive exn : Type :=
| IndexError.

Inductive result (A : Type) : Type :=
| Ok (a : A)
| Raise (e : exn).

Arguments Ok {A} a.
Arguments Raise {A} e.

Definition bind {A B : Type} (m : result A) (k : A -> result B) : result B :=
  match m with
  | Ok a => k a
  | Raise e => Raise e
  end.

(** [s[i]]: a negative index counts from the end, an index out of range
    raises [IndexError]. *)
Definition getitem (s : string) (i : Z) : result ascii :=
  let j := if i <? 0 then i + len s else i in
  if (0 <=? j) && (j <? len s) then
    match get (Z.to_nat j) s with
    | Some c => Ok c
    | None => Raise IndexError
    end
  else Raise IndexError.

(** [str.isspace] on one character, for code points below 256. *)
Definition is_space (c : ascii) : bool :=
  let n := N_of_ascii c in
  (((9 <=? n) && (n <=? 13)) || ((28 <=? n) && (n <=? 32))
   || (n =? 133) || (n =? 160))%N.

Fixpoint lstrip (s : string) : string :=
  match s with
  | EmptyString => EmptyString
  | String c s' => if is_space c then lstrip s' else s
  end.

Fixpoint rstrip (s : string) : string :=
  match s with
  | EmptyString => EmptyString
  | String c s' =>
      match rstrip s' with
      | EmptyString => if is_space c then EmptyString else String c EmptyString
      | r => String c r
      end
  end.

(** [s.strip()] *)
Definition strip (s : string) : string := rstrip (lstrip s).

(** [range(lo, hi)] *)
Definition range (lo hi : Z) : list Z := seqZ lo (hi - lo).

End PyStr.

Notation "'let?' x ':=' m 'in' k" := (PyStr.bind m (fun x => k))
  (at level 10, x name, m at level 100, k at level 200).

(** ** The log line parser (lines 194-226 of [log_streaming_thread]) *)

Module Parser.
Import PyStr.

(** What one line is parsed into: [(timestamp, message)]; a [None]
    timestamp is Python's [None]. *)
Definition parsed : Type := option string * string.

(** The test of line 201. *)
Definition marker (log_line : string) : bool :=
  contains "T" (slice_to log_line 25)
  && contains "Z" (slice_to log_line 30)
  && contains " : " log_line.

(** The test of line 216. *)
Definition fallback_marker (log_line : string) : bool :=
  contains "T" (slice_to log_line 15)
  && (contains "Z" (slice_to log_line 30)
      || contains "+" (slice_to log_line 30)).

(** The loop of lines 217-221 over the offsets still to visit; falling
    off the end leaves [timestamp] and [message] as they were
    initialised. *)
Fixpoint scan (log_line : string) (offsets : list Z) : result parsed :=
  match offsets with
  | [] => Ok (None, log_line)
  | i :: rest =>
      if i <? len log_line then
        let? c := getitem log_line i in
        if Ascii.eqb c "Z" then
          Ok (Some (slice_to log_line (i + 1)),
              strip (slice_from log_line (i + 1)))
        else
          let? c' := getitem log_line i in
          if Ascii.eqb c' "+" then
            Ok (Some (slice_to log_line (i + 1)),
                strip (slice_from log_line (i + 1)))
          else scan log_line rest
      else scan log_line rest
  end.

(** The body of the [try] block, lines 199-221. *)
Definition parse_body (log_line : string) : result parsed :=
  if truthy log_line && (len log_line >? 20) then
    if marker log_line then
      let space_pos := find log_line " " 20 in
      if space_pos >? 0 then
        let timestamp := Some (slice_to log_line space_pos) in
        let colon_pos := find log_line " : " 0 in
        if colon_pos >? 0 then
          Ok (timestamp, slice_from log_line (colon_pos + 3))
        else
          Ok (timestamp, strip (slice_from log_line space_pos))
      else Ok (None, log_line)
    else
      if fallback_marker log_line then scan log_line (range 20 30)
      else Ok (None, log_line)
  else Ok (None, log_line).

(** The [except Exception] handler, lines 222-226. *)
Definition handle (r : result parsed) (log_line : string) : parsed :=
  match r with
  | Ok p => p
  | Raise _ => (None, log_line)
  end.

(** [timestamp] and [message] as they stand at line 228. *)
Definition parse (log_line : string) : parsed :=
  handle (parse_body log_line) log_line.

End Parser.

(** ** The stream registry and its workers

    [stream_pod_logs] (lines 156-259), the thread function
    [log_streaming_thread] (lines 162-252) and [stop_log_stream]
    (lines 261-268).  Threads interleave between loop iterations: the
    model runs one iteration of one worker, or one call of the request
    handling path, at a time. *)

Module Streams.
Import Parser.

(** A [threading.Thread] object, told apart by identity: its position in
    the list of threads created so far. *)
Definition tid : Type := nat.

(** What [w.stream(...)] still has to deliver to the [for] loop: it
    ends, raises an exception [e] with [str(e) = msg], or yields a line
    and goes on. *)
Inductive source : Type :=
| Exhausted
| Fails (msg : string)
| Yields (log_line : string) (rest : source).

(** The two [socketio.emit] calls, lines 238 and 250, with their
    payloads. *)
Inductive event : Type :=
| log_update (pod namespace : string) (container : option string)
             (message : string) (timestamp : option string)
| error (message : string).

Inductive status : Type :=
| Running
| Finished.

(** The closure [log_streaming_thread] with the variables it captures,
    the rest of its source and whether it has returned. *)
Record worker : Type := {
  pod_name : string;
  namespace : string;
  container : option string;
  socketio : bool;
  pending : source;
  state : status
}.

(** [self.active_streams], the threads started so far, and the events
    that reached the sink, in arrival order, each with the thread that
    emitted it. *)
Record world : Type := {
  active_streams : gmap string tid;
  threads : list worker;
  sink : list (tid * event)
}.

Definition initial : world :=
  {| active_streams := ∅; threads := []; sink := [] |}.

(** [pod_name in self.active_streams] *)
Definition registered (pod : string) (W : world) : bool :=
  bool_decide (is_Some (active_streams W !! pod)).

(** [if socketio: socketio.emit(...)] *)
Definition emit (t : tid) (wk : worker) (e : event)
    (out : list (tid * event)) : list (tid * event) :=
  if socketio wk then out ++ [(t, e)] else out.

Definition advance (wk : worker) (rest : source) : worker :=
  {| pod_name := pod_name wk; namespace := namespace wk;
     container := container wk; socketio := socketio wk;
     pending := rest; state := Running |}.

Definition finish (wk : worker) : worker :=
  {| pod_name := pod_name wk; namespace := namespace wk;
     container := container wk; socketio := socketio wk;
     pending := pending wk; state := Finished |}.

(** One turn of thread [t] running [log_streaming_thread]: it asks its
    source for the next line and
    - on a line, leaves the loop and returns when its pod is not in
      [active_streams] (lines 179-182, 242-246), otherwise parses the
      line and emits it (lines 184-240);
    - at the end of the source, returns (lines 242-246);
    - on an exception, emits the error and deletes its pod from
      [active_streams] when it is there (lines 247-252).
    A thread that has returned does nothing. *)
Definition iteration (t : tid) (wk : worker) (W : world) : world :=
  match state wk with
  | Finished => W
  | Running =>
      match pending wk with
      | Yields log_line rest =>
          if registered (pod_name wk) W then
            let '(timestamp, message) := parse log_line in
            let log_data :=
              log_update (pod_name wk) (namespace wk) (container wk)
                         message timestamp in
            {| active_streams := active_streams W;
               threads := <[t := advance wk rest]> (threads W);
               sink := emit t wk log_data (sink W) |}
          else
            {| active_streams := active_streams W;
               threads := <[t := finish wk]> (threads W);
               sink := sink W |}
      | Exhausted =>
          {| active_streams := active_streams W;
             threads := <[t := finish wk]> (threads W);
             sink := sink W |}
      | Fails msg =>
          {| active_streams :=
               if registered (pod_name wk) W
               then delete (pod_name wk) (active_streams W)
               else active_streams W;
             threads := <[t := finish wk]> (threads W);
             sink := emit t wk (error msg) (sink W) |}
      end
  end.

(** [stop_log_stream], lines 261-268. *)
Definition stop_log_stream (pod : string) (W : world) : bool * world :=
  if registered pod W then
    (true,
     {| active_streams := delete pod (active_streams W);
        threads := threads W;
        sink := sink W |})
  else (false, W).

(** [stream_pod_logs], lines 156-259; [src] is what
    [w.stream(self.core_v1.read_namespaced_pod_log, ...)] will deliver
    to the new thread. *)
Definition stream_pod_logs (ns pod : string) (cont : option string)
    (src : source) (sio : bool) (W : world) : world :=
  let W1 := if registered pod W then snd (stop_log_stream pod W) else W in
  let thread := length (threads W1) in
  {| active_streams := <[pod := thread]> (active_streams W1);
     threads := threads W1 ++
                [{| pod_name := pod; namespace := ns; container := cont;
                    socketio := sio; pending := src; state := Running |}];
     sink := sink W1 |}.

(** What can happen next: a request starts or stops a stream, or some
    thread takes a turn. *)
Inductive action : Type :=
| Start (ns pod : string) (cont : option string) (src : source) (sio : bool)
| Stop (pod : string)
| Turn (t : tid).

Definition perform (W : world) (a : action) : world :=
  match a with
  | Start ns pod cont src sio => stream_pod_logs ns pod cont src sio W
  | Stop pod => snd (stop_log_stream pod W)
  | Turn t =>
      match threads W !! t with
      | Some wk => iteration t wk W
      | None => W
      end
  end.

Definition run (schedule : list action) (W : world) : world :=
  fold_left perform schedule W.

(** Whether thread [t] is still inside [log_streaming_thread]. *)
Definition alive (t : tid) (W : world) : bool :=
  match threads W !! t with
  | Some wk => match state wk with Running => true | Finished => false end
  | None => false
  end.

End Streams.

(** ** The vocabulary of the properties *)

Module Terms.
Import PyStr Parser Streams.

(** The character at a Python offset, when there is one. *)
Definition char_at (s : string) (i : Z) : option ascii :=
  if i <? 0 then None else get (Z.to_nat i) s.

(** [c] occurs among the first [k] characters of [s]. *)
Definition char_within (c : ascii) (k : Z) (s : string) : Prop :=
  exists i, 0 <= i < k /\ char_at s i = Some c.

(** [sub] occurs in [s] at offset [i]. *)
Definition occurs_at (sub s : string) (i : nat) : Prop :=
  substring i (String.length sub) s = sub.

(** The character at offset [i] is one of the two the scan of lines
    217-221 looks for. *)
Definition hit (s : string) (i : Z) : Prop :=
  char_at s i = Some "Z"%char \/ char_at s i = Some "+"%char.

(** The record the scan builds when it stops at offset [i]. *)
Definition cut_at (log_line : string) (i : Z) : parsed :=
  (Some (slice_to log_line (i + 1)), strip (slice_from log_line (i + 1))).

(** A source that yields the given lines and then behaves as [last]. *)
Definition feed (lines : list string) (last : source) : source :=
  fold_right Yields last lines.

End Terms.

(** ** The lines and the runs the properties are checked on *)

Module Inputs.
Import Streams.

(** The Spring Boot line of the comment at line 193, shortened. *)
Definition spring_line : string :=
  "2025-05-14T17:19:26.938Z INFO 1 --- [svc] [Thread-1] c.v.t.Service : Hello".

(** A line that starts with the separator. *)
Definition separator_first : string :=
  " : 2025-05-14T17:19:26.938Z INFO hello".

(** Two lines without a separator: a zone mark at offset 23, and one
    at offset 19, before the scanned offsets. *)
Definition offset_line : string := "2025-05-14T17:19:26.938Z hello world  ".
Definition early_zone_line : string :=
  "2025-05-14T17:19:26Z and some more text".

(** A line whose only spaces are before offset 20. *)
Definition tagged_line : string := "a : 2025-05-14T17:19:26.938Z".

(** A stream of pod1 that has two lines to deliver. *)
Definition two_lines : source := Yields "a" (Yields "b" Exhausted).

Definition streaming : world :=
  stream_pod_logs "ns" "pod1" None two_lines true initial.

(** pod1 is started, its worker delivers one line, and pod1 is started
    again. *)
Definition restarted : world :=
  run [Start "ns" "pod1" None two_lines true; Turn 0%nat;
       Start "ns" "pod1" None (Yields "c" Exhausted) true] initial.

(** A stream whose source ends at once; and a stream whose source is
    about to raise when its pod is started again. *)
Definition ended : world :=
  run [Start "ns" "pod1" None Exhausted true; Turn 0%nat] initial.

Definition replaced : world :=
  run [Start "ns" "pod1" None (Fails "boom") true;
       Start "ns" "pod1" None two_lines true] initial.

End Inputs.

(** ** The socket handlers of [src/app.py] that start and stop streams *)

Module App.
Import PyStr Streams.

(** The [data] dict of a [start_logs] or [stop_logs] message: each key is
    absent ([None]) or holds a string. *)
Record request : Type := {
  req_namespace : option string;
  req_pod : option string;
  req_container : option string
}.

(** [data.get('namespace', 'default')] *)
Definition namespace_of (data : request) : string :=
  match req_namespace data with
  | Some ns => ns
  | None => "default"
  end.

(** [handle_start_logs], lines 104-137 of [src/app.py]: the events the
    handler itself emits, and the state it leaves; [src] is what the log
    source will deliver to the thread it starts. *)
Definition handle_start_logs (data : request) (src : source) (W : world)
    : list event * world :=
  let namespace := namespace_of data in
  let container := req_container data in
  match req_pod data with
  | None => ([], W)
  | Some pod_name =>
      if truthy pod_name then
        let test_log :=
          log_update pod_name namespace container
            ("Starting log stream for " +:+ pod_name +:+ "...") None in
        ([test_log], stream_pod_logs namespace pod_name container src true W)
      else ([], W)
  end.

(** [handle_stop_logs], lines 139-144 of [src/app.py]. *)
Definition handle_stop_logs (data : request) (W : world) : world :=
  match req_pod data with
  | None => W
  | Some pod_name =>
      if truthy pod_name then snd (stop_log_stream pod_name W) else W
  end.

End App.

(** ** Listing contexts and pods

    [get_contexts] (lines 29-53), [_get_container_state] (lines 146-154)
    and [get_pods] (lines 99-144) of [src/api/kubernetes_client.py], on
    the objects the cluster API returns. *)

Module Listing.

Inductive failure : Type :=
| AttributeError.

Inductive outcome (A : Type) : Type :=
| Returns (a : A)
| Raises (e : failure).

Arguments Returns {A} a.
Arguments Raises {A} e.

(** An entry of the kube config: [ctx["name"]]. *)
Record kube_context : Type := {
  ctx_name : string
}.

(** [{"name": ..., "active": ...}] *)
Record context_info : Type := {
  info_name : string;
  info_active : bool
}.

(** [get_contexts]: the list it returns and [self.current_context]
    afterwards.  [contexts_data] is [None] or the pair the kube config
    loader returns. *)
Definition get_contexts
    (contexts_data : option (list kube_context * kube_context))
    (current_context : option string)
    : list context_info * option string :=
  match contexts_data with
  | None => ([], current_context)
  | Some (available_contexts, active_context) =>
      (map (fun ctx =>
              {| info_name := ctx_name ctx;
                 info_active :=
                   String.eqb (ctx_name ctx) (ctx_name active_context) |})
           available_contexts,
       Some (ctx_name active_context))
  end.

(** [container_status.state]: whether [running] is set, and [waiting]
    and [terminated] with their [reason], a string or [None]. *)
Record container_state : Type := {
  running : bool;
  waiting : option (option string);
  terminated : option (option string)
}.

Record container_status : Type := {
  cs_name : string;
  cs_ready : bool;
  cs_state : option container_state
}.

(** A reason inside an f-string. *)
Definition shown (reason : option string) : string :=
  match reason with
  | Some r => r
  | None => "None"
  end.

(** The four cases of lines 148-154. *)
Definition state_text (st : container_state) : string :=
  if running st then "Running"
  else
    match waiting st with
    | Some reason => "Waiting: " +:+ shown reason
    | None =>
        match terminated st with
        | Some reason => "Terminated: " +:+ shown reason
        | None => "Unknown"
        end
    end.

(** [_get_container_state]: reading [.running] of a missing state
    raises. *)
Definition _get_container_state (container_status : container_status)
    : outcome string :=
  match cs_state container_status with
  | None => Raises AttributeError
  | Some st => Returns (state_text st)
  end.

(** [{"name": ..., "ready": ..., "status": ...}] *)
Record container_info : Type := {
  c_name : string;
  c_ready : bool;
  c_status : string
}.

(** The loop of lines 113-117 filling the [container_statuses] dict. *)
Fixpoint collect (statuses : list container_status)
    (container_statuses : gmap string (bool * string))
    : outcome (gmap string (bool * string)) :=
  match statuses with
  | [] => Returns container_statuses
  | status :: rest =>
      match _get_container_state status with
      | Raises e => Raises e
      | Returns state =>
          collect rest
            (<[cs_name status := (cs_ready status, state)]> container_statuses)
      end
  end.

(** Lines 120-126: one spec container looked up in the dict. *)
Definition container_entry (container_statuses : gmap string (bool * string))
    (name : string) : container_info :=
  let status_info :=
    match container_statuses !! name with
    | Some info => info
    | None => (false, "Unknown")
    end in
  {| c_name := name; c_ready := fst status_info; c_status := snd status_info |}.

Section Pods.

(** The creation time of a pod and its rendering by
    [strftime("%Y-%m-%d %H:%M:%S UTC")]. *)
Variable datetime : Type.
Variable strftime : datetime -> string.

(** The fields of a pod the listing reads: [metadata.name],
    [metadata.namespace], [status.phase], [status.container_statuses],
    the names of [spec.containers], [metadata.creation_timestamp]. *)
Record pod : Type := {
  pod_meta_name : string;
  pod_meta_namespace : string;
  pod_phase : option string;
  pod_container_statuses : option (list container_status);
  pod_spec_containers : list string;
  pod_creation_timestamp : option datetime
}.

Record pod_info : Type := {
  p_name : string;
  p_namespace : string;
  p_status : option string;
  p_containers : list container_info;
  p_creation_timestamp : option string
}.

(** The statuses the loop of line 113 visits: none when
    [container_statuses] is [None] or empty. *)
Definition visited (p : pod) : list container_status :=
  match pod_container_statuses p with
  | Some (status :: rest) => status :: rest
  | _ => []
  end.

(** The body of the loop over pods, lines 106-136. *)
Definition pod_entry (p : pod) : outcome pod_info :=
  match collect (visited p) ∅ with
  | Raises e => Raises e
  | Returns container_statuses =>
      Returns
        {| p_name := pod_meta_name p;
           p_namespace := pod_meta_namespace p;
           p_status := pod_phase p;
           p_containers :=
             map (container_entry container_statuses) (pod_spec_containers p);
           p_creation_timestamp :=
             match pod_creation_timestamp p with
             | Some t => Some (strftime t)
             | None => None
             end |}
  end.

(** [get_pods] on the items of the pod list; an exception is raised
    again by the handlers of lines 139-144. *)
Fixpoint get_pods (items : list pod) : outcome (list pod_info) :=
  match items with
  | [] => Returns []
  | p :: rest =>
      match pod_entry p with
      | Raises e => Raises e
      | Returns info =>
          match get_pods rest with
          | Raises e => Raises e
          | Returns pods => Returns (info :: pods)
          end
      end
  end.

End Pods.

Arguments pod_meta_name {datetime} p.
Arguments pod_meta_namespace {datetime} p.
Arguments pod_phase {datetime} p.
Arguments pod_container_statuses {datetime} p.
Arguments pod_spec_containers {datetime} p.
Arguments pod_creation_timestamp {datetime} p.
Arguments visited {datetime} p.
Arguments pod_entry {datetime} strftime p.
Arguments get_pods {datetime} strftime items.

End Listing.

(** ** More vocabulary: what holds of a state of the registry *)

Module Notions.
Import PyStr Parser Streams Listing.

(** The events of the sink that thread [t] emitted. *)
Definition emitted_by (t : tid) (W : world) : list event :=
  map snd (filter (fun te => fst te = t) (sink W)).

(** Thread [t] was started without a sink. *)
Definition mute (t : tid) (W : world) : Prop :=
  exists wk, threads W !! t = Some wk /\ socketio wk = false.

(** The status the pod listing reports for the container [name]: that of
    the last status of that name, if any. *)
Definition reported (statuses : list container_status) (name : string)
    : container_info :=
  match last (filter (fun st => cs_name st = name) statuses) with
  | Some st =>
      {| c_name := name; c_ready := cs_ready st;
         c_status := match cs_state st with
                     | Some s => state_text s
                     | None => "Unknown"
                     end |}
  | None => {| c_name := name; c_ready := false; c_status := "Unknown" |}
  end.

(** Some status the listing visits has no state. *)
Definition stateless {datetime : Type} (p : pod datetime) : Prop :=
  exists st, st ∈ visited p /\ cs_state st = None.

End Notions.

(** ** More lines and runs *)

Module MoreInputs.
Import Streams.

(** A Spring Boot line with runs of spaces around the separator. *)
Definition padded_line : string :=
  "2025-05-14T17:19:26.938Z  WARN  svc :   disk  full  ".

(** A line with neither a 'T' nor a zone mark. *)
Definition plain_line : string :=
  "request /healthz 200 : served in 3 ms by worker 7".


(** A pod with two containers: two statuses for the first, the later one
    running and ready, and none for the second.  Its creation time is
    kept as text. *)
Definition web_pod : Listing.pod string :=
  Listing.Build_pod string "web-1" "default" (Some "Running")
    (Some [Listing.Build_container_status "app" false
             (Some (Listing.Build_container_state false
                      (Some (Some "CrashLoopBackOff")) None));
           Listing.Build_container_status "app" true
             (Some (Listing.Build_container_state true None None))])
    ["app"; "sidecar"] (Some "2025-05-14 17:19:26 UTC").

(** A pod whose only container status has no state. *)
Definition broken_pod : Listing.pod string :=
  Listing.Build_pod string "job-7" "default" (Some "Pending")
    (Some [Listing.Build_container_status "init" false None])
    ["init"] None.

Definition web_info : Listing.pod_info :=
  Listing.Build_pod_info "web-1" "default" (Some "Running")
    [Listing.Build_container_info "app" true "Running";
     Listing.Build_container_info "sidecar" false "Unknown"]
    (Some "2025-05-14 17:19:26 UTC").

End MoreInputs.

(** ** The streams in a process whose console, sink and threads can fail

    [Streams] and [App] take every [print], every [socketio.emit] and
    every [thread.start()] to succeed.  Here they can raise: the [print]
    calls of lines 187, 237 and 240 and the [emit] of line 238 sit inside
    the outer [try] of [log_streaming_thread]; [thread.start()] of line
    258 comes after the thread is stored at line 257; and the handler of
    [start_logs] wraps its body in a [try] (lines 115-137 of
    [src/app.py]).  The worker also keeps its [log_count]. *)

Module Process.
Import PyStr Parser.

Definition tid : Type := nat.

(** Who called [socketio.emit]: the handler of a request, or a worker
    thread. *)
Inductive emitter : Type :=
| Handler
| Thread (t : tid).

(** The payloads of the [emit] calls; the namespace is [None] when the
    request held a null. *)
Inductive event : Type :=
| log_update (pod : string) (namespace : option string)
             (container : option string)
             (message : string) (timestamp : option string)
| error (message : string).

(** What the process runs in: [print text] and [socketio.emit] of an
    event return, or raise an exception [e]; [Some msg] is [str(e)]. *)
Record console : Type := {
  print : string -> option string;
  deliver : event -> option string
}.

(** A thread object: created and stored but never started (its
    [start()] raised), running [log_streaming_thread], or returned. *)
Inductive status : Type :=
| Created
| Running
| Finished.

Record worker : Type := {
  pod_name : string;
  namespace : option string;
  container : option string;
  socketio : bool;
  log_count : nat;
  pending : Streams.source;
  state : status
}.

Record world : Type := {
  active_streams : gmap string tid;
  threads : list worker;
  sink : list (emitter * event)
}.

Definition initial : world :=
  {| active_streams := ∅; threads := []; sink := [] |}.

(** [pod_name in self.active_streams] *)
Definition registered (pod : string) (W : world) : bool :=
  bool_decide (is_Some (active_streams W !! pod)).

(** An integer inside an f-string. *)
Definition decimal (n : nat) : string :=
  NilEmpty.string_of_uint (Nat.to_uint n).

(** [None] or a string inside an f-string. *)
Definition shown (value : option string) : string :=
  match value with
  | Some text => text
  | None => "None"
  end.

(** The texts of the [print] calls of lines 187, 237 and 240. *)
Definition debug_text (log_line : string) : string :=
  "DEBUG - Raw log line: " +:+ log_line.

Definition emitting_text (timestamp : option string) (message : string)
    : string :=
  "Emitting log: timestamp=" +:+ shown timestamp +:+ ", message_length="
  +:+ decimal (String.length message).

Definition emitted_text (log_count : nat) : string :=
  "Emitted " +:+ decimal log_count +:+ " logs so far".

Definition counted (wk : worker) (log_count : nat) (rest : Streams.source)
    : worker :=
  {| pod_name := pod_name wk; namespace := namespace wk;
     container := container wk; socketio := socketio wk;
     log_count := log_count; pending := rest; state := Running |}.

Definition finish (wk : worker) : worker :=
  {| pod_name := pod_name wk; namespace := namespace wk;
     container := container wk; socketio := socketio wk;
     log_count := log_count wk; pending := pending wk; state := Finished |}.

Definition with_thread (t : tid) (wk : worker) (W : world) : world :=
  {| active_streams := active_streams W;
     threads := <[t := wk]> (threads W);
     sink := sink W |}.

Definition with_event (who : emitter) (e : event) (W : world) : world :=
  {| active_streams := active_streams W;
     threads := threads W;
     sink := sink W ++ [(who, e)] |}.

(** The body of the [try] either runs through or raises [e] with
    [str(e) = msg], in the state it has reached. *)
Inductive attempt : Type :=
| Through (W : world)
| Raised (msg : string) (W : world).

(** Lines 184-240 for one line of a worker whose pod is registered. *)
Definition process_line (E : console) (t : tid) (wk : worker)
    (log_line : string) (rest : Streams.source) (W : world) : attempt :=
  let count := S (log_count wk) in
  let W0 := with_thread t (counted wk count rest) W in
  match (if (count =? 1)%nat then print E (debug_text log_line) else None) with
  | Some msg => Raised msg W0
  | None =>
      let '(timestamp, message) := parse log_line in
      let log_data :=
        log_update (pod_name wk) (namespace wk) (container wk)
                   message timestamp in
      if socketio wk then
        match print E (emitting_text timestamp message) with
        | Some msg => Raised msg W0
        | None =>
            match deliver E log_data with
            | Some msg => Raised msg W0
            | None =>
                let W1 := with_event (Thread t) log_data W0 in
                match (if (count mod 50 =? 0)%nat
                       then print E (emitted_text count) else None) with
                | Some msg => Raised msg W1
                | None => Through W1
                end
            end
        end
      else Through W0
  end.

(** The [except] branch, lines 247-252; when the [emit] of line 250
    raises, the thread function is left through the exception and line
    251 is not reached. *)
Definition recover (E : console) (t : tid) (wk : worker) (msg : string)
    (W : world) : world :=
  let unregister (W : world) : world :=
    {| active_streams :=
         if registered (pod_name wk) W
         then delete (pod_name wk) (active_streams W)
         else active_streams W;
       threads := threads W;
       sink := sink W |} in
  let returned (W : world) : world :=
    match threads W !! t with
    | Some wk' => with_thread t (finish wk') W
    | None => W
    end in
  if socketio wk then
    match deliver E (error msg) with
    | Some _ => returned W
    | None => returned (unregister (with_event (Thread t) (error msg) W))
    end
  else returned (unregister W).

(** One turn of thread [t]: the next item of its source goes through the
    loop body.  Only a running thread takes turns. *)
Definition iteration (E : console) (t : tid) (wk : worker) (W : world)
    : world :=
  match state wk with
  | Created => W
  | Finished => W
  | Running =>
      match pending wk with
      | Streams.Yields log_line rest =>
          if registered (pod_name wk) W then
            match process_line E t wk log_line rest W with
            | Through W' => W'
            | Raised msg W' => recover E t wk msg W'
            end
          else with_thread t (finish wk) W
      | Streams.Exhausted => with_thread t (finish wk) W
      | Streams.Fails msg => recover E t wk msg W
      end
  end.

(** [stop_log_stream], lines 261-268. *)
Definition stop_log_stream (pod : string) (W : world) : bool * world :=
  if registered pod W then
    (true,
     {| active_streams := delete pod (active_streams W);
        threads := threads W;
        sink := sink W |})
  else (false, W).

(** [stream_pod_logs], lines 156-259.  [spawn] is what [thread.start()]
    does: [None] when it returns, [Some msg] when it raises [e] with
    [str(e) = msg]; the exception goes to the caller, after the thread
    was stored at line 257. *)
Definition stream_pod_logs (ns : option string) (pod : string)
    (cont : option string) (src : Streams.source) (sio : bool)
    (spawn : option string) (W : world) : option string * world :=
  let W1 := if registered pod W then snd (stop_log_stream pod W) else W in
  let thread := length (threads W1) in
  (spawn,
   {| active_streams := <[pod := thread]> (active_streams W1);
      threads := threads W1 ++
                 [{| pod_name := pod; namespace := ns; container := cont;
                     socketio := sio; log_count := 0; pending := src;
                     state := match spawn with
                              | None => Running
                              | Some _ => Created
                              end |}];
      sink := sink W1 |}).

(** What [data.get(key)] finds in the message of a request: no such key,
    a null, or a string. *)
Inductive field : Type :=
| Absent
| Null
| Text (s : string).

Record request : Type := {
  req_namespace : field;
  req_pod : field;
  req_container : field
}.

(** [data.get('namespace', 'default')] *)
Definition namespace_of (data : request) : option string :=
  match req_namespace data with
  | Absent => Some "default"
  | Null => None
  | Text ns => Some ns
  end.

(** [data.get(key)] *)
Definition data_get (f : field) : option string :=
  match f with
  | Absent => None
  | Null => None
  | Text s => Some s
  end.

(** [handle_start_logs], lines 104-137 of [src/app.py]: the state it
    leaves and the exception that leaves the handler, if any. *)
Definition handle_start_logs (E : console) (data : request)
    (src : Streams.source) (spawn : option string) (W : world)
    : option string * world :=
  let namespace := namespace_of data in
  let container := data_get (req_container data) in
  match data_get (req_pod data) with
  | None => (None, W)
  | Some pod_name =>
      if truthy pod_name then
        let test_log :=
          log_update pod_name namespace container
            ("Starting log stream for " +:+ pod_name +:+ "...") None in
        let body : option string * world :=
          match deliver E test_log with
          | Some msg => (Some msg, W)
          | None =>
              stream_pod_logs namespace pod_name container src true spawn
                (with_event Handler test_log W)
          end in
        match body with
        | (None, W') => (None, W')
        | (Some msg, W') =>
            match deliver E (error msg) with
            | Some msg' => (Some msg', W')
            | None => (None, with_event Handler (error msg) W')
            end
        end
      else (None, W)
  end.

(** What can happen next. *)
Inductive action : Type :=
| Start (ns : option string) (pod : string) (cont : option string)
        (src : Streams.source) (sio : bool) (spawn : option string)
| Stop (pod : string)
| Turn (t : tid).

Definition perform (E : console) (W : world) (a : action) : world :=
  match a with
  | Start ns pod cont src sio spawn =>
      snd (stream_pod_logs ns pod cont src sio spawn W)
  | Stop pod => snd (stop_log_stream pod W)
  | Turn t =>
      match threads W !! t with
      | Some wk => iteration E t wk W
      | None => W
      end
  end.

Definition run (E : console) (schedule : list action) (W : world) : world :=
  fold_left (perform E) schedule W.

(** Whether thread [t] is inside [log_streaming_thread]. *)
Definition alive (t : tid) (W : world) : bool :=
  match threads W !! t with
  | Some wk => match state wk with Running => true | _ => false end
  | None => false
  end.

(** Every [print] returns; every [emit] returns. *)
Definition prints_all (E : console) : Prop := forall text, print E text = None.
Definition delivers_all (E : console) : Prop := forall e, deliver E e = None.

(** A console that takes everything, and one whose stdout is 7-bit: a
    [print] of a text with a character above 127 raises. *)
Definition quiet : console :=
  {| print := fun _ => None; deliver := fun _ => None |}.

Fixpoint plain (text : string) : bool :=
  match text with
  | EmptyString => true
  | String c rest => (N_of_ascii c <? 128)%N && plain rest
  end.

Definition seven_bit : console :=
  {| print := fun text =>
       if plain text then None
       else Some "'ascii' codec can't encode character";
     deliver := fun _ => None |}.

(** Every registered handle is a thread object that was created for the
    pod it is registered under. *)
Definition handles_valid (W : world) : Prop :=
  forall pod t, active_streams W !! pod = Some t ->
                exists wk, threads W !! t = Some wk /\ pod_name wk = pod.

(** The [print] and [emit] calls the loop body makes for [log_line], as
    line number [count] of a worker of pod [pod] with a sink, all
    return. *)
Definition line_passes (E : console) (pod : string) (ns cont : option string)
    (count : nat) (log_line : string) : Prop :=
  (count = 1%nat -> print E (debug_text log_line) = None)
  /\ print E (emitting_text (fst (parse log_line)) (snd (parse log_line)))
     = None
  /\ deliver E (log_update pod ns cont (snd (parse log_line))
                           (fst (parse log_line))) = None
  /\ ((count mod 50 = 0)%nat -> print E (emitted_text count) = None).

(** The same for the lines that follow line number [count]. *)
Fixpoint lines_pass (E : console) (pod : string) (ns cont : option string)
    (count : nat) (lines : list string) : Prop :=
  match lines with
  | [] => True
  | log_line :: rest =>
      line_passes E pod ns cont (S count) log_line
      /\ lines_pass E pod ns cont (S count) rest
  end.

(** The pods the thread objects were created for, by thread. *)
Definition names (W : world) : list string := map pod_name (threads W).

(** The [log_update] event worker [wk] builds from one line. *)
Definition record_of (wk : worker) (log_line : string) : event :=
  log_update (pod_name wk) (namespace wk) (container wk)
             (snd (parse log_line)) (fst (parse log_line)).

End Process.

(** ** The embedding at work *)

Module ParserExamples.
Import PyStr Parser.

Example parse_spring :
  parse "2025-05-14T17:19:26.938Z INFO 1 --- [svc] [Thread-1] c.v.t.Service : Hello"
  = (Some "2025-05-14T17:19:26.938Z", "Hello").
Proof. vm_compute. reflexivity. Qed.

Example parse_short : parse "short line" = (None, "short line").
Proof. reflexivity. Qed.

Example parse_offset :
  parse "2025-05-14T17:19:26.938+00:00   started   "
  = (Some "2025-05-14T17:19:26.938+", "00:00   started").
Proof. vm_compute. reflexivity. Qed.

Example parse_sep_at_zero :
  parse " : 2025-05-14T17:19:26.938Z INFO hello"
  = (Some " : 2025-05-14T17:19:26.938Z", "INFO hello").
Proof. vm_compute. reflexivity. Qed.

End ParserExamples.

Module StreamExamples.
Import Streams Inputs.

Example start_registers_pod1 :
  active_streams (stream_pod_logs "ns" "pod1" None two_lines true initial)
    !! "pod1" = Some 0%nat.
Proof. reflexivity. Qed.

Example one_turn :
  sink (run [Start "ns" "pod1" None two_lines true; Turn 0%nat] initial)
  = [(0%nat, log_update "pod1" "ns" None "a" None)].
Proof. vm_compute. reflexivity. Qed.

End StreamExamples.

(** ** Facts about the string primitives *)

Module PyStrFacts.
Import PyStr Terms.

Lemma len_nonneg s : 0 <= len s.
Proof. unfold len. lia. Qed.

Lemma get_beyond s : forall j, (String.length s <= j)%nat -> get j s = None.
Proof.
  induction s as [|c s IH]; intros j Hj; [reflexivity|].
  destruct j as [|j]; simpl in *; [lia|]. apply IH. lia.
Qed.

Lemma get_inside s : forall j, (j < String.length s)%nat -> is_Some (get j s).
Proof.
  induction s as [|c s IH]; intros j Hj; simpl in *; [lia|].
  destruct j as [|j]; [eexists; reflexivity|]. apply IH. lia.
Qed.

Lemma get_is_occurrence c s : forall j,
  get j s = Some c <-> occurs_at (String c "") s j.
Proof.
  unfold occurs_at. simpl String.length.
  induction s as [|d s IH]; intros j.
  - destruct j; simpl; split; discriminate.
  - destruct j as [|j]; simpl.
    + destruct s; simpl; split; congruence.
    + apply IH.
Qed.

Lemma index_from n sub : forall s m, index n sub s = Some m -> (n <= m)%nat.
Proof.
  induction n as [|n IH]; intros s m H; [lia|].
  destruct s as [|b s]; simpl in H; [discriminate|].
  destruct (index n sub s) as [k|] eqn:E; [|discriminate].
  injection H as <-. apply IH in E. lia.
Qed.

Lemma contains_occurs sub s :
  sub <> "" -> contains sub s = true <-> exists i, occurs_at sub s i.
Proof.
  intros Hne. unfold contains, occurs_at.
  destruct (index 0 sub s) as [m|] eqn:E; split; intros H; try done.
  - exists m. eapply index_correct1, E.
  - destruct H as [i Hi].
    exfalso. eapply (index_correct3 0 i); eauto. lia.
Qed.

Lemma slice_to_prefix s k :
  0 <= k -> slice_to s k = substring 0 (Z.to_nat (Z.min k (len s))) s.
Proof.
  intros Hk. unfold slice_to, slice, clip. pose proof (len_nonneg s).
  replace (0 <? 0) with false by reflexivity.
  destruct (k <? 0) eqn:E; [lia|].
  rewrite (Z.min_l 0) by lia. rewrite Z.sub_0_r. reflexivity.
Qed.

Lemma get_slice_to s k j :
  0 <= k ->
  get j (slice_to s k) = if Z.of_nat j <? k then get j s else None.
Proof.
  intros Hk. rewrite slice_to_prefix by done. pose proof (len_nonneg s).
  destruct (Z.of_nat j <? Z.min k (len s)) eqn:E.
  - rewrite substring_correct1 by lia. rewrite Nat.add_0_r.
    destruct (Z.of_nat j <? k) eqn:E'; [reflexivity|lia].
  - rewrite substring_correct2 by lia.
    destruct (Z.of_nat j <? k) eqn:E'; [|reflexivity].
    symmetry. apply get_beyond. unfold len in *. lia.
Qed.

(** [c in s[:k]] says that [c] is among the first [k] characters. *)
Lemma contains_char_within c s k :
  0 <= k ->
  contains (String c "") (slice_to s k) = true <-> char_within c k s.
Proof.
  intros Hk. rewrite contains_occurs by discriminate.
  unfold char_within, char_at. split.
  - intros [j Hj]. apply get_is_occurrence in Hj.
    rewrite get_slice_to in Hj by done.
    destruct (Z.of_nat j <? k) eqn:E; [|discriminate].
    exists (Z.of_nat j). rewrite Nat2Z.id.
    destruct (Z.of_nat j <? 0) eqn:E'; [lia|]. split; [lia|done].
  - intros (i & Hi & Hc). destruct (i <? 0) eqn:E; [discriminate|].
    exists (Z.to_nat i). apply get_is_occurrence.
    rewrite get_slice_to by done.
    destruct (Z.of_nat (Z.to_nat i) <? k) eqn:E'; [done|exfalso; lia].
Qed.

Lemma getitem_inside s i :
  0 <= i < len s ->
  exists c, getitem s i = Ok c /\ char_at s i = Some c.
Proof.
  intros Hi. unfold getitem, char_at.
  destruct (i <? 0) eqn:E; [lia|].
  destruct ((0 <=? i) && (i <? len s)) eqn:E'; [|lia].
  destruct (get_inside s (Z.to_nat i)) as [c Hc]; [unfold len in *; lia|].
  exists c. rewrite Hc. done.
Qed.

(** [s.find(sub, start)] is [-1] or an offset at or after [start] where
    [sub] occurs. *)
Lemma find_spec s sub start :
  0 <= start ->
  find s sub start = -1
  \/ exists m, find s sub start = Z.of_nat m /\ start <= Z.of_nat m
               /\ occurs_at sub s m.
Proof.
  intros Hs. unfold find.
  destruct (start <? 0) eqn:E'; [lia|].
  destruct (len s - start <? len sub); [left; reflexivity|].
  destruct (index _ sub s) as [m|] eqn:E; [right|left; reflexivity].
  exists m. split; [reflexivity|]. split.
  - apply index_from in E. lia.
  - eapply index_correct1, E.
Qed.

Lemma substring_fits s : forall n k,
  (String.length (substring n k s) <= String.length s - n)%nat.
Proof.
  induction s as [|c s IH]; intros n k.
  - destruct n, k; simpl; lia.
  - destruct n as [|n]; simpl.
    + destruct k as [|k]; simpl; [lia|]. specialize (IH 0%nat k). lia.
    + apply IH.
Qed.

(** [s.find(sub, start)] is the first offset at or after [start] where
    [sub] occurs, when there is one. *)
Lemma find_first s sub start m :
  sub <> "" -> 0 <= start <= Z.of_nat m -> occurs_at sub s m ->
  (forall j, start <= Z.of_nat j < Z.of_nat m -> ~ occurs_at sub s j) ->
  find s sub start = Z.of_nat m.
Proof.
  intros Hne Hstart Hocc Hfirst. unfold find.
  destruct (start <? 0) eqn:E'; [lia|].
  assert (String.length sub <= String.length s - m)%nat as Hfit.
  { unfold occurs_at in Hocc. rewrite <- Hocc at 1. apply substring_fits. }
  assert (String.length sub <> 0)%nat as Hpos by (by destruct sub).
  destruct (len s - start <? len sub) eqn:E; [unfold len in E; lia|].
  destruct (index (Z.to_nat start) sub s) as [m'|] eqn:Ei.
  - f_equal. pose proof (index_from _ _ _ _ Ei) as Hge.
    pose proof (index_correct1 _ _ _ _ Ei) as Hocc'.
    pose proof (index_correct2 _ _ _ _ Ei) as Hfirst'.
    destruct (lt_eq_lt_dec m m') as [[Hlt|Heq]|Hgt]; [|done|].
    + exfalso. apply (Hfirst' m); [lia|lia|exact Hocc].
    + exfalso. apply (Hfirst m'); [lia|exact Hocc'].
  - exfalso. apply (index_correct3 _ m _ _ Ei Hne); [lia|exact Hocc].
Qed.

End PyStrFacts.

(** ** The parser: which branch a line takes, and what the scan finds *)

Module ParserFacts.
Import PyStr Parser Terms PyStrFacts.

Lemma char_at_inside s i c : char_at s i = Some c -> 0 <= i < len s.
Proof.
  unfold char_at. destruct (i <? 0) eqn:E; [discriminate|]. intros H.
  destruct (decide (i < len s)) as [Hlt|Hge]; [lia|].
  rewrite get_beyond in H; [discriminate|]. unfold len in *. lia.
Qed.

Lemma long_line_guard log_line :
  20 < len log_line -> truthy log_line && (len log_line >? 20) = true.
Proof.
  intros H. destruct log_line; [unfold len in H; simpl in H; lia|].
  simpl. lia.
Qed.

Lemma short_line_guard log_line :
  len log_line <= 20 -> truthy log_line && (len log_line >? 20) = false.
Proof. intros H. apply andb_false_iff. right. lia. Qed.

Lemma marker_spec log_line :
  marker log_line = true <->
  char_within "T" 25 log_line /\ char_within "Z" 30 log_line
  /\ exists i, occurs_at " : " log_line i.
Proof.
  unfold marker. rewrite !andb_true_iff.
  rewrite !contains_char_within by lia.
  rewrite contains_occurs by discriminate. tauto.
Qed.

Lemma fallback_marker_spec log_line :
  fallback_marker log_line = true <->
  char_within "T" 15 log_line
  /\ (char_within "Z" 30 log_line \/ char_within "+" 30 log_line).
Proof.
  unfold fallback_marker. rewrite andb_true_iff, orb_true_iff.
  rewrite !contains_char_within by lia. tauto.
Qed.

(** One pass through the body of the [for] loop. *)
Lemma scan_step_hit log_line i rest :
  hit log_line i -> scan log_line (i :: rest) = Ok (cut_at log_line i).
Proof.
  intros Hhit. simpl.
  assert (0 <= i < len log_line) as Hi
    by (destruct Hhit as [H|H]; eapply char_at_inside, H).
  destruct (i <? len log_line) eqn:E; [|lia].
  destruct (getitem_inside log_line i Hi) as (c & -> & Hc). simpl.
  destruct Hhit as [H|H]; rewrite H in Hc; injection Hc as <-; reflexivity.
Qed.

Lemma scan_step_miss log_line i rest :
  0 <= i -> ~ hit log_line i ->
  scan log_line (i :: rest) = scan log_line rest.
Proof.
  intros Hi Hmiss. simpl.
  destruct (i <? len log_line) eqn:E; [|reflexivity].
  destruct (getitem_inside log_line i) as (c & -> & Hc); [lia|]. simpl.
  destruct (Ascii.eqb_spec c "Z") as [->|_]; [exfalso; apply Hmiss; by left|].
  destruct (Ascii.eqb_spec c "+") as [->|_]; [exfalso; apply Hmiss; by right|].
  reflexivity.
Qed.

Lemma scan_finds log_line (n : nat) : forall m i,
  0 <= m -> m <= i < m + Z.of_nat n ->
  hit log_line i -> (forall j, m <= j < i -> ~ hit log_line j) ->
  scan log_line (seqZ m (Z.of_nat n)) = Ok (cut_at log_line i).
Proof.
  induction n as [|n IH]; intros m i Hm Hi Hhit Hfirst; [lia|].
  rewrite seqZ_cons by lia.
  replace (Z.pred (Z.of_nat (S n))) with (Z.of_nat n) by lia.
  destruct (decide (i = m)) as [->|Hne].
  - by apply scan_step_hit.
  - rewrite scan_step_miss; [|lia|apply Hfirst; lia].
    apply IH; [lia|lia|done|]. intros j Hj. apply Hfirst. lia.
Qed.

Lemma scan_finds_nothing log_line (n : nat) : forall m,
  0 <= m -> (forall j, m <= j < m + Z.of_nat n -> ~ hit log_line j) ->
  scan log_line (seqZ m (Z.of_nat n)) = Ok (None, log_line).
Proof.
  induction n as [|n IH]; intros m Hm Hnone; [reflexivity|].
  rewrite seqZ_cons by lia.
  replace (Z.pred (Z.of_nat (S n))) with (Z.of_nat n) by lia.
  rewrite scan_step_miss; [|lia|apply Hnone; lia].
  apply IH; [lia|]. intros j Hj. apply Hnone. lia.
Qed.

Lemma scan_returns log_line offsets :
  Forall (fun i => 0 <= i) offsets -> exists p, scan log_line offsets = Ok p.
Proof.
  induction 1 as [|i rest Hi _ IH]; [by eexists|]. simpl.
  destruct (i <? len log_line) eqn:E; [|exact IH].
  destruct (getitem_inside log_line i) as (c & -> & _); [lia|]. simpl.
  destruct (Ascii.eqb c "Z"); [by eexists|].
  destruct (Ascii.eqb c "+"); [by eexists|exact IH].
Qed.

Lemma parse_body_returns log_line : exists p, parse_body log_line = Ok p.
Proof.
  unfold parse_body.
  destruct (truthy log_line && (len log_line >? 20)); [|by eexists].
  destruct (marker log_line).
  - destruct (find log_line " " 20 >? 0); [|by eexists].
    destruct (find log_line " : " 0 >? 0); by eexists.
  - destruct (fallback_marker log_line); [|by eexists].
    apply scan_returns. unfold range. apply Forall_seqZ. lia.
Qed.

(** No space at or after offset 20 makes the search of line 203 fail. *)
Lemma find_space_fails log_line :
  (forall k, 20 <= k -> char_at log_line k <> Some " "%char) ->
  find log_line " " 20 = -1.
Proof.
  intros Hnone.
  destruct (find_spec log_line " " 20) as [H|(m & _ & Hm & Hocc)];
    [lia|exact H|].
  exfalso. apply (Hnone (Z.of_nat m) Hm).
  apply get_is_occurrence in Hocc. unfold char_at.
  destruct (Z.of_nat m <? 0) eqn:E; [lia|]. by rewrite Nat2Z.id.
Qed.

(** The branch of lines 203-213: [sp] is the first space at or after
    offset 20 and [m] the first occurrence of the separator.  The message
    is the text after the separator when [m] is positive, and the trimmed
    text from [sp] on when the line starts with the separator. *)
Lemma separator_branch log_line (sp m : nat) :
  20 < len log_line -> marker log_line = true ->
  20 <= Z.of_nat sp -> occurs_at " " log_line sp ->
  (forall j, 20 <= Z.of_nat j < Z.of_nat sp -> ~ occurs_at " " log_line j) ->
  occurs_at " : " log_line m ->
  (forall j, (j < m)%nat -> ~ occurs_at " : " log_line j) ->
  parse log_line
  = (Some (slice_to log_line (Z.of_nat sp)),
     if (0 <? m)%nat then slice_from log_line (Z.of_nat m + 3)
     else strip (slice_from log_line (Z.of_nat sp))).
Proof.
  intros Hlong Hmark Hsp Hspace Hfirst_space Hsep Hfirst_sep.
  unfold parse, parse_body. rewrite long_line_guard, Hmark by done.
  rewrite (find_first log_line " " 20 sp) by (done || lia).
  rewrite (find_first log_line " : " 0 m);
    [|done|lia|done|intros j Hj; apply Hfirst_sep; lia].
  destruct (Z.of_nat sp >? 0) eqn:E; [|lia].
  destruct m as [|m]; reflexivity.
Qed.

End ParserFacts.

(** ** The parser: the properties of the specification *)

Module ParserSpec.
Import PyStr Parser Terms Inputs PyStrFacts ParserFacts.

(** C4: for every text line, the empty one included, parsing raises
    nothing: the body of the [try] block returns a record, which is the
    result of [parse]; and the handler turns any exception into
    timestamp = none, message = the whole raw line. *)
Theorem parse_never_raises :
  (forall log_line,
      exists p, parse_body log_line = Ok p /\ parse log_line = p)
  /\ parse "" = (None, "")
  /\ (forall e log_line, handle (Raise e) log_line = (None, log_line)).
Proof.
  split; [|split; reflexivity].
  intros log_line. destruct (parse_body_returns log_line) as [p Hp].
  exists p. split; [exact Hp|]. unfold parse. by rewrite Hp.
Qed.

(** C5, as stated, fails: the timestamp of the Spring Boot line is not
    the whole prefix before the separator. *)
Lemma spring_line_timestamp_is_not_the_prefix :
  parse spring_line <>
  (Some "2025-05-14T17:19:26.938Z INFO 1 --- [svc] [Thread-1] c.v.t.Service",
   "Hello").
Proof. vm_compute. discriminate. Qed.

(** C5, amended: for the Spring Boot line, parse yields timestamp =
    "2025-05-14T17:19:26.938Z", the prefix that ends before the first
    space at or after offset 20, and message = "Hello". *)
Theorem spring_line_parsed :
  parse spring_line = (Some "2025-05-14T17:19:26.938Z", "Hello")
  /\ find spring_line " " 20 = 24
  /\ slice_to spring_line (find spring_line " " 20)
     = "2025-05-14T17:19:26.938Z".
Proof. vm_compute. auto. Qed.

(** C6 at a line that starts with the separator: the line takes the
    branch of line 201 and has a space at offset 27, the first
    occurrence of the separator is at offset 0, and the message is the
    trimmed text after the space of offset 27, not the text after the
    separator. *)
Theorem separator_at_offset_zero_is_skipped :
  marker separator_first = true
  /\ find separator_first " " 20 = 27
  /\ find separator_first " : " 0 = 0
  /\ parse separator_first
     = (Some " : 2025-05-14T17:19:26.938Z", "INFO hello")
  /\ snd (parse separator_first) <> slice_from separator_first (0 + 3).
Proof. vm_compute. repeat split; discriminate. Qed.

(** C7: a line of more than 20 characters that fails the test of line
    201, has 'T' among its first 15 characters and 'Z' or '+' among its
    first 30: when the first 'Z' or '+' at offsets 20..29 is at offset
    [i], the timestamp is the line up to offset [i] inclusive and the
    message is the rest, trimmed; when there is none at offsets 20..29,
    the timestamp is none and the message is the raw line. *)
Theorem fallback_scan (log_line : string)
    (Hlong : 20 < len log_line)
    (Hfails : ~ (char_within "T" 25 log_line /\ char_within "Z" 30 log_line
                 /\ exists k, occurs_at " : " log_line k))
    (HT : char_within "T" 15 log_line)
    (HZ : char_within "Z" 30 log_line \/ char_within "+" 30 log_line) :
  (forall i, 20 <= i <= 29 -> hit log_line i ->
             (forall j, 20 <= j < i -> ~ hit log_line j) ->
             parse log_line
             = (Some (slice_to log_line (i + 1)),
                strip (slice_from log_line (i + 1))))
  /\ ((forall i, 20 <= i <= 29 -> ~ hit log_line i) ->
      parse log_line = (None, log_line)).
Proof.
  assert (parse log_line
          = handle (scan log_line (seqZ 20 (Z.of_nat 10))) log_line)
    as Hparse.
  { unfold parse, parse_body. rewrite long_line_guard by done.
    destruct (marker log_line) eqn:Em;
      [exfalso; by apply Hfails, marker_spec|].
    destruct (fallback_marker log_line) eqn:Ef; [reflexivity|].
    assert (fallback_marker log_line = true) as Ht
      by (by apply fallback_marker_spec).
    congruence. }
  rewrite Hparse. split.
  - intros i Hi Hhit Hfirst.
    rewrite (scan_finds log_line 10 20 i) by (done || lia). reflexivity.
  - intros Hnone.
    rewrite (scan_finds_nothing log_line 10 20); [reflexivity|lia|].
    intros j Hj. apply Hnone. lia.
Qed.

Lemma fallback_scan_witness :
  parse offset_line = (Some "2025-05-14T17:19:26.938Z", "hello world")
  /\ parse early_zone_line = (None, early_zone_line).
Proof.
  split.
  - refine (proj1 (fallback_scan offset_line _ _ _ _) 23 _ _ _).
    + reflexivity.
    + rewrite <- marker_spec. vm_compute. discriminate.
    + exists 10. split; [lia|reflexivity].
    + left. exists 23. split; [lia|reflexivity].
    + lia.
    + left. reflexivity.
    + intros j Hj.
      assert (j = 20 \/ j = 21 \/ j = 22) as [->|[->| ->]] by lia;
        intros [H|H]; vm_compute in H; discriminate.
  - refine (proj2 (fallback_scan early_zone_line _ _ _ _) _).
    + reflexivity.
    + rewrite <- marker_spec. vm_compute. discriminate.
    + exists 10. split; [lia|reflexivity].
    + left. exists 19. split; [lia|reflexivity].
    + intros i Hi.
      assert (i = 20 \/ i = 21 \/ i = 22 \/ i = 23 \/ i = 24 \/ i = 25
              \/ i = 26 \/ i = 27 \/ i = 28 \/ i = 29)
        as [->|[->|[->|[->|[->|[->|[->|[->|[->| ->]]]]]]]]] by lia;
        intros [H|H]; vm_compute in H; discriminate.
Defined.

(** C10: a line of more than 20 characters that passes the test of line
    201 ('T' among the first 25 characters, 'Z' among the first 30, the
    separator somewhere) and has no space at any offset from 20 on gets
    timestamp = none and message = the raw line, separator or not. *)
Theorem no_space_after_timestamp (log_line : string)
    (Hlong : 20 < len log_line)
    (HT : char_within "T" 25 log_line)
    (HZ : char_within "Z" 30 log_line)
    (Hsep : exists k, occurs_at " : " log_line k)
    (Hnone : forall k, 20 <= k -> char_at log_line k <> Some " "%char) :
  parse log_line = (None, log_line).
Proof.
  unfold parse, parse_body. rewrite long_line_guard by done.
  assert (marker log_line = true) as -> by (by apply marker_spec).
  rewrite (find_space_fails log_line Hnone). reflexivity.
Qed.

Lemma no_space_after_timestamp_witness :
  parse tagged_line = (None, tagged_line).
Proof.
  apply no_space_after_timestamp.
  - reflexivity.
  - exists 14. split; [lia|reflexivity].
  - exists 27. split; [lia|reflexivity].
  - exists 1%nat. reflexivity.
  - intros k Hk. destruct (decide (k < 28)) as [Hlt|Hge].
    + assert (k = 20 \/ k = 21 \/ k = 22 \/ k = 23 \/ k = 24 \/ k = 25
              \/ k = 26 \/ k = 27)
        as [->|[->|[->|[->|[->|[->|[->| ->]]]]]]] by lia;
        vm_compute; discriminate.
    + unfold char_at. destruct (k <? 0) eqn:E; [discriminate|].
      rewrite get_beyond; [discriminate|].
      change (String.length tagged_line) with 28%nat. lia.
Defined.

End ParserSpec.

(** ** The registry and the workers: one step at a time *)

Module StreamFacts.
Import Parser Streams Terms.
Local Open Scope list_scope.

Lemma registered_spec pod W :
  registered pod W = true <-> is_Some (active_streams W !! pod).
Proof. unfold registered. apply bool_decide_eq_true. Qed.

Lemma unregistered_spec pod W :
  registered pod W = false <-> active_streams W !! pod = None.
Proof.
  unfold registered. rewrite bool_decide_eq_false.
  rewrite eq_None_not_Some. tauto.
Qed.

Lemma stop_keeps_threads pod W :
  threads (snd (stop_log_stream pod W)) = threads W.
Proof. unfold stop_log_stream. by destruct (registered pod W). Qed.

Lemma stop_keeps_sink pod W :
  sink (snd (stop_log_stream pod W)) = sink W.
Proof. unfold stop_log_stream. by destruct (registered pod W). Qed.

Lemma stop_unregisters pod W :
  active_streams (snd (stop_log_stream pod W)) !! pod = None.
Proof.
  unfold stop_log_stream. destruct (registered pod W) eqn:E; simpl.
  - apply lookup_delete_eq.
  - by apply unregistered_spec.
Qed.

Lemma start_threads ns pod cont src sio W :
  threads (stream_pod_logs ns pod cont src sio W)
  = threads W ++
    [{| pod_name := pod; namespace := ns; container := cont;
        socketio := sio; pending := src; state := Running |}].
Proof.
  unfold stream_pod_logs.
  destruct (registered pod W); simpl; by rewrite ?stop_keeps_threads.
Qed.

Lemma start_registers ns pod cont src sio W :
  active_streams (stream_pod_logs ns pod cont src sio W) !! pod
  = Some (length (threads W)).
Proof.
  unfold stream_pod_logs. simpl. rewrite lookup_insert_eq.
  destruct (registered pod W); by rewrite ?stop_keeps_threads.
Qed.

Lemma start_keeps_sink ns pod cont src sio W :
  sink (stream_pod_logs ns pod cont src sio W) = sink W.
Proof.
  unfold stream_pod_logs.
  destruct (registered pod W); simpl; by rewrite ?stop_keeps_sink.
Qed.



Lemma start_keeps_alive ns pod cont src sio W t :
  (t < length (threads W))%nat ->
  alive t (stream_pod_logs ns pod cont src sio W) = alive t W.
Proof.
  intros Ht. unfold alive. rewrite start_threads.
  by rewrite lookup_app_l.
Qed.

End StreamFacts.

(** ** The registry and the workers: the properties of the specification *)

Module StreamSpec.
Import Parser Streams Terms Inputs StreamFacts.
Local Open Scope list_scope.

(** C9: stopping a pod that has no registered stream returns false and
    leaves everything as it was; and once a stop has returned true, the
    next stop of the same pod returns false. *)
Theorem stop_without_stream (pod : string) (W : world) :
  (active_streams W !! pod = None -> stop_log_stream pod W = (false, W))
  /\ (forall W', stop_log_stream pod W = (true, W') ->
                 stop_log_stream pod W' = (false, W')).
Proof.
  split.
  - intros Hnone. unfold stop_log_stream.
    by rewrite (proj2 (unregistered_spec pod W) Hnone).
  - intros W' Hstop.
    assert (W' = snd (stop_log_stream pod W)) as -> by (by rewrite Hstop).
    pose proof (stop_unregisters pod W) as Hgone.
    apply unregistered_spec in Hgone.
    unfold stop_log_stream at 1. by rewrite Hgone.
Qed.

Lemma stop_without_stream_witness :
  stop_log_stream "pod1" initial = (false, initial)
  /\ stop_log_stream "pod1" (snd (stop_log_stream "pod1" streaming))
     = (false, snd (stop_log_stream "pod1" streaming)).
Proof.
  split.
  - apply (proj1 (stop_without_stream "pod1" initial)). reflexivity.
  - apply (proj2 (stop_without_stream "pod1" streaming)). reflexivity.
Defined.

(** C1 on a restart: a stream of pod1 has delivered its first line when
    pod1 is started again.  The new handle is installed while the first
    worker is still running, and after the new worker has emitted, the
    first worker emits its second line. *)
Theorem superseded_worker_still_emits :
  active_streams restarted !! "pod1" = Some 1%nat
  /\ alive 0%nat restarted = true
  /\ sink restarted = [(0%nat, log_update "pod1" "ns" None "a" None)]
  /\ sink (run [Turn 1%nat; Turn 0%nat] restarted)
     = [(0%nat, log_update "pod1" "ns" None "a" None);
        (1%nat, log_update "pod1" "ns" None "c" None);
        (0%nat, log_update "pod1" "ns" None "b" None)].
Proof. vm_compute. auto. Qed.

(** C2 on a running stream: [stop_log_stream] returns true and the
    worker of the stream is still running. *)
Theorem stop_returns_while_worker_runs :
  alive 0%nat streaming = true
  /\ fst (stop_log_stream "pod1" streaming) = true
  /\ alive 0%nat (snd (stop_log_stream "pod1" streaming)) = true.
Proof. vm_compute. auto. Qed.

(** C3 on two runs.  A worker whose source ends returns and stays
    registered.  A worker that was replaced and whose source then raises
    deletes the entry of its pod, which holds the handle of the
    replacement, a worker that is still running. *)
Theorem worker_exit_and_registry :
  (alive 0%nat ended = false /\ active_streams ended !! "pod1" = Some 0%nat)
  /\ (active_streams replaced !! "pod1" = Some 1%nat
      /\ alive 1%nat replaced = true
      /\ alive 0%nat (perform replaced (Turn 0%nat)) = false
      /\ alive 1%nat (perform replaced (Turn 0%nat)) = true
      /\ active_streams (perform replaced (Turn 0%nat)) !! "pod1" = None).
Proof. vm_compute. auto 10. Qed.

End StreamSpec.

(** ** The parser: what every line keeps *)

Module ParserMore.
Import PyStr Parser Terms Inputs MoreInputs PyStrFacts ParserFacts.

Lemma substring_prefix s : forall n, String.prefix (substring 0 n s) s = true.
Proof.
  induction s as [|c s IH]; intros n.
  - destruct n; reflexivity.
  - destruct n as [|n]; simpl; [reflexivity|].
    destruct (ascii_dec c c) as [_|Hne]; [apply IH|done].
Qed.

Lemma substring_prefix_length s : forall n,
  String.length (substring 0 n s) = Nat.min n (String.length s).
Proof.
  induction s as [|c s IH]; intros n.
  - destruct n; reflexivity.
  - destruct n as [|n]; simpl; [reflexivity|]. by rewrite IH.
Qed.

Lemma slice_to_is_prefix s k :
  0 <= k <= len s ->
  String.prefix (slice_to s k) s = true /\ len (slice_to s k) = k.
Proof.
  intros Hk. rewrite slice_to_prefix by lia. split.
  - apply substring_prefix.
  - unfold len in *. rewrite substring_prefix_length. lia.
Qed.

Lemma occurrence_inside sub s m :
  sub <> "" -> occurs_at sub s m -> (m < String.length s)%nat.
Proof.
  intros Hne Hocc.
  assert (String.length sub <= String.length s - m)%nat as Hfit.
  { unfold occurs_at in Hocc. rewrite <- Hocc at 1. apply substring_fits. }
  assert (String.length sub <> 0)%nat by (by destruct sub). lia.
Qed.

(** The scan either leaves the line as it is or cuts it at one of the
    offsets it was given, inside the line. *)
Lemma scan_shape log_line offsets :
  Forall (fun i => 0 <= i) offsets ->
  scan log_line offsets = Ok (None, log_line)
  \/ exists i, i ∈ offsets /\ i < len log_line
               /\ scan log_line offsets = Ok (cut_at log_line i).
Proof.
  induction 1 as [|i rest Hi _ IH]; [by left|]. simpl.
  assert (scan log_line rest = Ok (None, log_line)
          \/ exists j, j ∈ i :: rest /\ j < len log_line
                       /\ scan log_line rest = Ok (cut_at log_line j)) as IH'.
  { destruct IH as [IH|(j & Hj & Hlt & IH)]; [by left|right].
    exists j. split; [by apply elem_of_cons; right|done]. }
  destruct (i <? len log_line) eqn:E; [|exact IH'].
  destruct (getitem_inside log_line i) as (c & -> & _); [lia|]. simpl.
  assert (exists j, j ∈ i :: rest /\ j < len log_line
                    /\ Ok (cut_at log_line i) = Ok (cut_at log_line j)) as Hcut.
  { exists i. split; [apply elem_of_cons; by left|]. split; [lia|done]. }
  destruct (Ascii.eqb c "Z"); [by right|].
  destruct (Ascii.eqb c "+"); [by right|exact IH'].
Qed.

(** How [parse] can end: the line as it is, the cut of the branch of line
    201 at a space at or after offset 20, or the cut of the scan at an
    offset from 20 to 29. *)
Lemma parse_shape log_line :
  parse log_line = (None, log_line)
  \/ (exists sp : nat, 20 <= Z.of_nat sp < len log_line
                       /\ fst (parse log_line)
                          = Some (slice_to log_line (Z.of_nat sp)))
  \/ (exists i, 20 <= i <= 29 /\ i < len log_line
                /\ parse log_line = cut_at log_line i).
Proof.
  unfold parse, parse_body.
  destruct (truthy log_line && (len log_line >? 20)); [|by left].
  destruct (marker log_line).
  - destruct (find_spec log_line " " 20) as [->|(sp & -> & Hsp & Hocc)];
      [lia|by left|].
    destruct (Z.of_nat sp >? 0) eqn:E; [|lia].
    right; left. exists sp. split.
    + apply occurrence_inside in Hocc; [|discriminate]. unfold len. lia.
    + by destruct (find log_line " : " 0 >? 0).
  - destruct (fallback_marker log_line); [|by left].
    destruct (scan_shape log_line (range 20 30))
      as [->|(i & Hi & Hlt & ->)]; [apply Forall_seqZ; lia|by left|].
    right; right. exists i. apply elem_of_seqZ in Hi.
    split; [lia|]. split; [lia|reflexivity].
Qed.

(** X1: a line of at most 20 characters, one of exactly 20 included, gets
    no timestamp and is its own message. *)
Theorem short_line_unchanged (log_line : string) :
  len log_line <= 20 -> parse log_line = (None, log_line).
Proof.
  intros Hshort. unfold parse, parse_body.
  by rewrite short_line_guard.
Qed.

Lemma short_line_unchanged_witness :
  parse "2025-05-14T17:19:26Z" = (None, "2025-05-14T17:19:26Z").
Proof. apply short_line_unchanged. vm_compute. discriminate. Defined.

(** X2: whenever parsing finds no timestamp, the message is the raw line,
    untouched: no text is dropped or trimmed without a timestamp. *)
Theorem no_timestamp_keeps_line (log_line : string) :
  fst (parse log_line) = None -> snd (parse log_line) = log_line.
Proof.
  intros Hnone.
  destruct (parse_shape log_line) as [->|[(sp & _ & H)|(i & _ & _ & H)]];
    [reflexivity| |]; rewrite H in Hnone; discriminate.
Qed.

Lemma no_timestamp_keeps_line_witness :
  snd (parse early_zone_line) = early_zone_line.
Proof. apply no_timestamp_keeps_line. reflexivity. Defined.

(** X3: a timestamp, when parsing finds one, is a prefix of the raw line
    that is at least 20 characters long. *)
Theorem timestamp_is_prefix (log_line ts : string) :
  fst (parse log_line) = Some ts ->
  String.prefix ts log_line = true /\ 20 <= len ts.
Proof.
  intros Hts.
  destruct (parse_shape log_line) as [H|[(sp & Hsp & H)|(i & Hi & Hlt & H)]];
    rewrite H in Hts; [discriminate| |]; injection Hts as <-.
  - destruct (slice_to_is_prefix log_line (Z.of_nat sp)) as [Hp Hl]; [lia|].
    split; [exact Hp|lia].
  - destruct (slice_to_is_prefix log_line (i + 1)) as [Hp Hl]; [lia|].
    split; [exact Hp|lia].
Qed.

Lemma timestamp_is_prefix_witness :
  String.prefix "2025-05-14T17:19:26.938Z" spring_line = true
  /\ 20 <= len "2025-05-14T17:19:26.938Z".
Proof. apply timestamp_is_prefix. reflexivity. Defined.

(** X4: in the branch of line 201, when the first space at or after
    offset 20 is at [sp] and the first separator at a positive offset
    [m], the timestamp is the line before [sp] and the message is all the
    text after the separator, not trimmed. *)
Theorem separator_splits (log_line : string) (sp m : nat) :
  20 < len log_line ->
  char_within "T" 25 log_line -> char_within "Z" 30 log_line ->
  20 <= Z.of_nat sp -> occurs_at " " log_line sp ->
  (forall j, 20 <= Z.of_nat j < Z.of_nat sp -> ~ occurs_at " " log_line j) ->
  (0 < m)%nat -> occurs_at " : " log_line m ->
  (forall j, (j < m)%nat -> ~ occurs_at " : " log_line j) ->
  parse log_line
  = (Some (slice_to log_line (Z.of_nat sp)),
     slice_from log_line (Z.of_nat m + 3)).
Proof.
  intros Hlong HT HZ Hsp Hspace Hfirst_space Hm Hsep Hfirst_sep.
  rewrite (separator_branch log_line sp m); try done.
  - destruct m; [lia|reflexivity].
  - apply marker_spec. eauto.
Qed.

Lemma separator_splits_witness :
  parse padded_line = (Some "2025-05-14T17:19:26.938Z", "  disk  full  ").
Proof.
  apply (separator_splits padded_line 24 35).
  - reflexivity.
  - exists 10. split; [lia|reflexivity].
  - exists 23. split; [lia|reflexivity].
  - lia.
  - reflexivity.
  - intros j Hj.
    apply (index_correct2 20 24 " " padded_line); [reflexivity|lia|lia].
  - lia.
  - reflexivity.
  - intros j Hj.
    apply (index_correct2 0 35 " : " padded_line); [reflexivity|lia|lia].
Defined.

Lemma char_within_wider c s k k' :
  k <= k' -> char_within c k s -> char_within c k' s.
Proof. intros Hk (i & Hi & Hc). exists i. split; [lia|done]. Qed.

(** X5: a line without 'T' among its first 25 characters, or with neither
    'Z' nor '+' among its first 30, gets no timestamp and is its own
    message. *)
Theorem unmarked_line_unchanged (log_line : string) :
  ~ char_within "T" 25 log_line
  \/ (~ char_within "Z" 30 log_line /\ ~ char_within "+" 30 log_line) ->
  parse log_line = (None, log_line).
Proof.
  intros Hun. unfold parse, parse_body.
  destruct (truthy log_line && (len log_line >? 20)); [|reflexivity].
  destruct (marker log_line) eqn:Em.
  { apply marker_spec in Em as (HT & HZ & _). exfalso. tauto. }
  destruct (fallback_marker log_line) eqn:Ef; [|reflexivity].
  apply fallback_marker_spec in Ef as (HT & HZ).
  apply (char_within_wider _ _ 15 25) in HT; [|lia].
  exfalso. tauto.
Qed.

Lemma unmarked_line_unchanged_witness :
  parse plain_line = (None, plain_line).
Proof.
  apply unmarked_line_unchanged. left.
  rewrite <- contains_char_within by lia. vm_compute. discriminate.
Defined.

End ParserMore.

(** ** The registry and the workers: what every schedule keeps *)

Module StreamMore.
Import Parser Streams Terms Inputs Notions MoreInputs StreamFacts.
Local Open Scope list_scope.

Lemma iteration_threads t wk W :
  threads (iteration t wk W) = threads W
  \/ exists wk', threads (iteration t wk W) = <[t := wk']> (threads W)
                 /\ (socketio wk' = socketio wk /\ pod_name wk' = pod_name wk)
                 /\ (state wk = Finished -> state wk' = Finished).
Proof.
  unfold iteration. destruct (state wk) eqn:Es; [|by left].
  destruct (pending wk) as [|msg|l rest]; simpl.
  - right. exists (finish wk). by repeat split.
  - right. exists (finish wk). by repeat split.
  - destruct (registered (pod_name wk) W); [destruct (parse l)|]; simpl;
      right; eexists; (split; [reflexivity|by split]).
Qed.

Lemma iteration_length t wk W :
  length (threads (iteration t wk W)) = length (threads W).
Proof.
  destruct (iteration_threads t wk W) as [->|(wk' & -> & _)]; [done|].
  apply length_insert.
Qed.

(** A turn leaves the registry as it is or deletes the pod of the
    worker. *)
Lemma iteration_registry t wk W :
  active_streams (iteration t wk W) = active_streams W
  \/ active_streams (iteration t wk W)
     = delete (pod_name wk) (active_streams W).
Proof.
  unfold iteration. destruct (state wk); [|by left].
  destruct (pending wk) as [|msg|l rest]; simpl; [by left| |].
  - destruct (registered (pod_name wk) W); [by right|by left].
  - destruct (registered (pod_name wk) W); [destruct (parse l)|]; by left.
Qed.

(** A turn of thread [t] appends at most one event, tagged [t], and none
    when the worker has no sink. *)
Lemma iteration_sink t wk W :
  sink (iteration t wk W) = sink W
  \/ (socketio wk = true
      /\ exists e, sink (iteration t wk W) = sink W ++ [(t, e)]).
Proof.
  unfold iteration, emit. destruct (state wk); [|by left].
  destruct (pending wk) as [|msg|l rest]; simpl; [by left| |].
  - destruct (socketio wk); [right|by left]. split; [done|by eexists].
  - destruct (registered (pod_name wk) W); [|by left].
    destruct (parse l). simpl.
    destruct (socketio wk); [right|by left]. split; [done|by eexists].
Qed.

Lemma stop_registry pod W :
  active_streams (snd (stop_log_stream pod W)) = delete pod (active_streams W).
Proof.
  unfold stop_log_stream. destruct (registered pod W) eqn:E; [done|].
  apply unregistered_spec in E. simpl. by rewrite delete_id.
Qed.

Lemma start_registry ns pod cont src sio W :
  active_streams (stream_pod_logs ns pod cont src sio W)
  = <[pod := length (threads W)]> (active_streams W).
Proof.
  unfold stream_pod_logs. simpl.
  destruct (registered pod W); [|done].
  rewrite stop_keeps_threads, stop_registry. apply insert_delete_eq.
Qed.

(** X6: starting or stopping the stream of one pod leaves the registry
    entry of every other pod as it was. *)
Theorem other_pods_untouched (pod other ns : string)
    (cont : option string) (src : source) (sio : bool) (W : world) :
  pod <> other ->
  active_streams (stream_pod_logs ns pod cont src sio W) !! other
  = active_streams W !! other
  /\ active_streams (snd (stop_log_stream pod W)) !! other
     = active_streams W !! other.
Proof.
  intros Hne. rewrite start_registry, stop_registry.
  by rewrite lookup_insert_ne, lookup_delete_ne.
Qed.

Lemma other_pods_untouched_witness :
  active_streams (stream_pod_logs "ns" "pod2" None Exhausted true streaming)
    !! "pod1" = Some 0%nat
  /\ active_streams (snd (stop_log_stream "pod2" streaming)) !! "pod1"
     = Some 0%nat.
Proof.
  apply (other_pods_untouched "pod2" "pod1" "ns" None Exhausted true streaming).
  discriminate.
Defined.



Lemma perform_keeps_finished W a t wk :
  threads W !! t = Some wk -> state wk = Finished ->
  exists wk', threads (perform W a) !! t = Some wk' /\ state wk' = Finished.
Proof.
  intros Ht Hfin. destruct a as [ns pod cont src sio|pod|t']; cbn [perform].
  - exists wk. split; [|done]. rewrite start_threads.
    by apply lookup_app_l_Some.
  - exists wk. by rewrite stop_keeps_threads.
  - destruct (threads W !! t') as [wk1|] eqn:Et'; [|by exists wk].
    destruct (iteration_threads t' wk1 W) as [->|(wk' & -> & _ & Hst)];
      [by exists wk|].
    destruct (decide (t' = t)) as [Heq|Hne]; [subst t'|].
    + assert (Some wk1 = Some wk) as [= ->]
        by (rewrite <- Ht, <- Et'; reflexivity). exists wk'. split.
      * apply list_lookup_insert_eq. by eapply lookup_lt_Some.
      * by apply Hst.
    + exists wk. by rewrite list_lookup_insert_ne.
Qed.

(** X9: a thread that has returned stays returned: no request and no turn
    brings it back. *)
Theorem finished_stays_finished (schedule : list action) (W : world) (t : tid) :
  (t < length (threads W))%nat -> alive t W = false ->
  alive t (run schedule W) = false.
Proof.
  intros Hlt Hdead.
  assert (exists wk, threads W !! t = Some wk /\ state wk = Finished) as Hfin.
  { unfold alive in Hdead. destruct (threads W !! t) as [wk|] eqn:Hwk.
    - exists wk. by destruct (state wk).
    - apply lookup_ge_None in Hwk. lia. }
  clear Hlt Hdead. revert W Hfin.
  induction schedule as [|a schedule IH]; intros W (wk & Ht & Hst).
  - unfold alive. simpl. by rewrite Ht, Hst.
  - apply IH. by eapply perform_keeps_finished.
Qed.

Lemma finished_stays_finished_witness :
  alive 0%nat (run [Start "ns" "pod1" None two_lines true; Turn 0%nat] ended)
  = false.
Proof. apply finished_stays_finished; [vm_compute; lia|reflexivity]. Defined.

Lemma emitted_by_app t W new out :
  sink W = out ++ new ->
  emitted_by t W
  = map snd (filter (fun te => fst te = t) out)
    ++ map snd (filter (fun te => fst te = t) new).
Proof. intros H. unfold emitted_by. by rewrite H, filter_app, map_app. Qed.

Lemma perform_keeps_mute W a t :
  mute t W ->
  mute t (perform W a) /\ emitted_by t (perform W a) = emitted_by t W.
Proof.
  intros (wk & Ht & Hsio). destruct a as [ns pod cont src sio|pod|t']; cbn [perform].
  - split.
    + exists wk. split; [|done]. rewrite start_threads.
      by apply lookup_app_l_Some.
    + unfold emitted_by. by rewrite start_keeps_sink.
  - split.
    + exists wk. by rewrite stop_keeps_threads.
    + unfold emitted_by. by rewrite stop_keeps_sink.
  - destruct (threads W !! t') as [wk1|] eqn:Et'; [|split; [by exists wk|done]].
    split.
    + unfold mute.
      destruct (iteration_threads t' wk1 W) as [->|(wk' & -> & [Hs _] & _)];
        [by exists wk|].
      destruct (decide (t' = t)) as [Heq|Hne]; [subst t'|].
      * assert (Some wk1 = Some wk) as [= ->]
        by (rewrite <- Ht, <- Et'; reflexivity). exists wk'. split.
        -- apply list_lookup_insert_eq. by eapply lookup_lt_Some.
        -- by rewrite Hs.
      * exists wk. by rewrite list_lookup_insert_ne.
    + destruct (iteration_sink t' wk1 W) as [H|(Hs & e & H)].
      * unfold emitted_by. by rewrite H.
      * rewrite (emitted_by_app t _ [(t', e)] (sink W) H).
        rewrite filter_cons, filter_nil. simpl.
        destruct (decide (t' = t)) as [Heq|Hne]; [subst t'|by rewrite app_nil_r].
        exfalso. assert (Some wk1 = Some wk) as [= ->]
        by (rewrite <- Ht, <- Et'; reflexivity). congruence.
Qed.

(** X10: a worker started without a sink never delivers anything,
    whatever happens next. *)
Theorem mute_worker_never_emits (schedule : list action) (W : world) (t : tid) :
  mute t W -> emitted_by t (run schedule W) = emitted_by t W.
Proof.
  revert W. induction schedule as [|a schedule IH]; intros W Hm; [done|].
  destruct (perform_keeps_mute W a t Hm) as [Hm' He].
  change (run (a :: schedule) W) with (run schedule (perform W a)).
  by rewrite IH.
Qed.

Lemma mute_worker_never_emits_witness :
  emitted_by 0%nat
    (run [Turn 0%nat; Turn 0%nat; Turn 0%nat]
         (stream_pod_logs "ns" "pod1" None two_lines false initial))
  = [].
Proof.
  apply (mute_worker_never_emits [Turn 0%nat; Turn 0%nat; Turn 0%nat]
           (stream_pod_logs "ns" "pod1" None two_lines false initial) 0%nat).
  eexists. split; reflexivity.
Defined.

(** X11: once the stream of its pod is stopped, the next line a running
    worker gets from its source is not delivered: the worker returns, and
    the sink and the registry stay as the stop left them. *)
Theorem stopped_worker_drops_line (W : world) (t : tid) (wk : worker)
    (log_line : string) (rest : source) :
  threads W !! t = Some wk -> state wk = Running ->
  pending wk = Yields log_line rest ->
  let W' := perform (snd (stop_log_stream (pod_name wk) W)) (Turn t) in
  sink W' = sink W /\ alive t W' = false
  /\ active_streams W' !! pod_name wk = None.
Proof.
  intros Ht Hrun Hsrc W'. subst W'. cbn [perform].
  rewrite stop_keeps_threads, Ht. unfold iteration. rewrite Hrun, Hsrc.
  pose proof (stop_unregisters (pod_name wk) W) as Hgone.
  rewrite (proj2 (unregistered_spec _ _) Hgone).
  unfold alive. cbn [sink threads active_streams].
  rewrite stop_keeps_sink, stop_keeps_threads.
  rewrite list_lookup_insert_eq by (by eapply lookup_lt_Some). done.
Qed.

Lemma stopped_worker_drops_line_witness :
  let W' := perform (snd (stop_log_stream "pod1" streaming)) (Turn 0%nat) in
  sink W' = [] /\ alive 0%nat W' = false
  /\ active_streams W' !! "pod1" = None.
Proof.
  exact (stopped_worker_drops_line streaming 0%nat
           {| pod_name := "pod1"; namespace := "ns"; container := None;
              socketio := true; pending := two_lines; state := Running |}
           "a" (Yields "b" Exhausted) eq_refl eq_refl eq_refl).
Defined.




End StreamMore.

(** ** The socket handlers: what a message does to the streams *)

Module AppSpec.
Import PyStr Parser Streams App Terms Inputs Notions MoreInputs StreamFacts.
Local Open Scope list_scope.

Lemma truthy_nonempty s : s <> "" -> truthy s = true.
Proof. by destruct s. Qed.

(** X15: a [start_logs] or [stop_logs] message whose pod is absent or
    empty does nothing: no event is emitted, no stream is started or
    stopped. *)
Theorem request_without_pod (data : request) (src : source) (W : world) :
  req_pod data = None \/ req_pod data = Some "" ->
  handle_start_logs data src W = ([], W) /\ handle_stop_logs data W = W.
Proof.
  unfold handle_start_logs, handle_stop_logs. by intros [-> | ->].
Qed.

Lemma request_without_pod_witness :
  handle_start_logs
    {| req_namespace := Some "ns"; req_pod := Some ""; req_container := None |}
    two_lines streaming
  = ([], streaming)
  /\ handle_stop_logs
       {| req_namespace := Some "ns"; req_pod := Some "";
          req_container := None |} streaming
     = streaming.
Proof. apply request_without_pod. by right. Defined.

(** X17: a [stop_logs] message after a [start_logs] message for the same
    pod leaves the registry without that pod and with every other entry
    as it was before the two messages. *)
Theorem stop_request_after_start (data : request) (pod : string)
    (src : source) (W : world) :
  req_pod data = Some pod -> pod <> "" ->
  active_streams (handle_stop_logs data (snd (handle_start_logs data src W)))
  = delete pod (active_streams W).
Proof.
  intros Hpod Hne. unfold handle_stop_logs, handle_start_logs.
  rewrite Hpod, truthy_nonempty by done. cbn [snd].
  unfold stop_log_stream.
  assert (registered pod
            (stream_pod_logs (namespace_of data) pod (req_container data)
                             src true W) = true) as ->.
  { apply registered_spec. rewrite start_registers. by eexists. }
  cbn [snd active_streams].
  unfold stream_pod_logs. cbn [active_streams].
  rewrite delete_insert_eq.
  destruct (registered pod W) eqn:E; [|done].
  unfold stop_log_stream. rewrite E. cbn [snd active_streams].
  apply delete_delete_eq.
Qed.

Lemma stop_request_after_start_witness :
  let data := {| req_namespace := None; req_pod := Some "pod2";
                 req_container := None |} in
  active_streams
    (handle_stop_logs data (snd (handle_start_logs data two_lines streaming)))
  = delete "pod2" (active_streams streaming).
Proof.
  exact (stop_request_after_start
           {| req_namespace := None; req_pod := Some "pod2";
              req_container := None |} "pod2" two_lines streaming
           eq_refl ltac:(discriminate)).
Defined.

End AppSpec.

(** ** Listing contexts and pods: what the lists hold *)

Module ListingSpec.
Import Listing Notions MoreInputs.
Local Open Scope list_scope.

Lemma active_marks (active : kube_context) (available : list kube_context) :
  filter (fun i => info_active i = true)
         (fst (get_contexts (Some (available, active)) None))
  = map (fun ctx => {| info_name := ctx_name ctx; info_active := true |})
        (filter (fun ctx => ctx_name ctx = ctx_name active) available).
Proof.
  simpl. induction available as [|ctx available IH]; [done|]. simpl.
  rewrite !filter_cons. simpl.
  destruct (String.eqb_spec (ctx_name ctx) (ctx_name active)) as [Heq|Hne].
  - rewrite decide_True by done. rewrite decide_True by done.
    simpl. by rewrite IH.
  - rewrite decide_False by done. by rewrite decide_False by done.
Qed.

Lemma one_of_that_name (name : string) (available : list kube_context) :
  NoDup (map ctx_name available) -> name ∈ map ctx_name available ->
  length (filter (fun ctx => ctx_name ctx = name) available) = 1%nat.
Proof.
  induction available as [|ctx available IH]; simpl; intros Hnd Hin.
  - by apply elem_of_nil in Hin.
  - apply NoDup_cons in Hnd as [Hfresh Hnd]. rewrite filter_cons.
    destruct (decide (ctx_name ctx = name)) as [Heq|Hne].
    + simpl. f_equal. apply length_zero_iff_nil.
      destruct (filter _ available) as [|c rest] eqn:Ef; [done|].
      exfalso. apply Hfresh.
      assert (c ∈ filter (fun ctx => ctx_name ctx = name) available) as Hc
        by (rewrite Ef; left).
      apply list_elem_of_filter in Hc as [Hn Hc]. rewrite Heq, <- Hn.
      apply list_elem_of_In, in_map, list_elem_of_In, Hc.
    + apply IH; [done|]. apply elem_of_cons in Hin as [Hin|Hin]; [|done].
      by subst.
Qed.

(** X18: when the names of the kube config are distinct and the active
    context is one of them, [get_contexts] lists the contexts under their
    names in order, marks exactly one of them active, the one with
    the name of the active context, and records that name as the current
    context. *)
Theorem one_active_context (available : list kube_context)
    (active : kube_context) (current : option string) :
  NoDup (map ctx_name available) ->
  ctx_name active ∈ map ctx_name available ->
  let contexts := fst (get_contexts (Some (available, active)) current) in
  map info_name contexts = map ctx_name available
  /\ filter (fun i => info_active i = true) contexts
     = [{| info_name := ctx_name active; info_active := true |}]
  /\ snd (get_contexts (Some (available, active)) current)
     = Some (ctx_name active).
Proof.
  intros Hnd Hin contexts. subst contexts. split; [|split; [|done]].
  - simpl. rewrite map_map. done.
  - change (fst (get_contexts (Some (available, active)) current))
      with (fst (get_contexts (Some (available, active)) None)).
    rewrite active_marks.
    pose proof (one_of_that_name _ _ Hnd Hin) as Hone.
    destruct (filter _ available) as [|c [|c' rest]] eqn:Ef;
      simpl in Hone; try lia.
    assert (c ∈ filter (fun ctx => ctx_name ctx = ctx_name active) available)
      as Hc by (rewrite Ef; left).
    apply list_elem_of_filter in Hc as [Hn _]. simpl. by rewrite Hn.
Qed.

Lemma one_active_context_witness :
  let available := [{| ctx_name := "dev" |}; {| ctx_name := "prod" |};
                    {| ctx_name := "test" |}] in
  let contexts :=
    fst (get_contexts (Some (available, {| ctx_name := "prod" |})) None) in
  map info_name contexts = ["dev"; "prod"; "test"]
  /\ filter (fun i => info_active i = true) contexts
     = [{| info_name := "prod"; info_active := true |}]
  /\ snd (get_contexts (Some (available, {| ctx_name := "prod" |})) None)
     = Some "prod".
Proof.
  apply (one_active_context
           [{| ctx_name := "dev" |}; {| ctx_name := "prod" |};
            {| ctx_name := "test" |}] {| ctx_name := "prod" |} None).
  - simpl. repeat (apply NoDup_cons; split;
                   [rewrite ?elem_of_cons, elem_of_nil;
                    intros H; repeat destruct H as [H|H]; discriminate || done|]).
    apply NoDup_nil_2.
  - simpl. apply elem_of_cons. right. apply elem_of_cons. by left.
Defined.

Section Pods.
Context {datetime : Type} (strftime : datetime -> string).

Lemma collect_raises statuses : forall acc e,
  collect statuses acc = Raises e ->
  exists st, st ∈ statuses /\ cs_state st = None.
Proof.
  induction statuses as [|st rest IH]; intros acc e H; [discriminate|].
  simpl in H. unfold _get_container_state in H.
  destruct (cs_state st) eqn:Es.
  - apply IH in H as (st' & Hin & Hst'). exists st'. split; [by right|done].
  - exists st. split; [by left|done].
Qed.

(** The dict after the loop of lines 113-117 holds, for each name, what
    the last status of that name says. *)
Lemma collect_returns statuses : forall acc m name,
  collect statuses acc = Returns m ->
  (forall st, st ∈ statuses -> is_Some (cs_state st))
  /\ m !! name
     = match last (filter (fun st => cs_name st = name) statuses) with
       | Some st =>
           Some (cs_ready st,
                 match cs_state st with
                 | Some s => state_text s
                 | None => "Unknown"
                 end)
       | None => acc !! name
       end.
Proof.
  induction statuses as [|st rest IH]; intros acc m name H.
  - injection H as <-. split; [|done]. intros st Hst.
    by apply elem_of_nil in Hst.
  - simpl in H. unfold _get_container_state in H.
    destruct (cs_state st) as [s|] eqn:Es; [|discriminate].
    destruct (IH _ _ name H) as [Hall Hm]. split.
    + intros st' Hin. apply elem_of_cons in Hin as [->|Hin]; [|by apply Hall].
      rewrite Es. by eexists.
    + rewrite Hm, filter_cons.
      destruct (decide (cs_name st = name)) as [Heq|Hne].
      * rewrite last_cons.
        destruct (last (filter _ rest)); [done|].
        by rewrite Heq, lookup_insert_eq, Es.
      * destruct (last (filter _ rest)); [done|].
        by rewrite lookup_insert_ne.
Qed.

Lemma pod_entry_raises (p : pod datetime) e :
  pod_entry strftime p = Raises e <-> stateless p.
Proof.
  unfold pod_entry, stateless. split.
  - destruct (collect (visited p) ∅) as [m|e'] eqn:Ec; [discriminate|].
    intros _. by eapply collect_raises.
  - intros (st & Hin & Hst).
    destruct (collect (visited p) ∅) as [m|e'] eqn:Ec.
    + destruct (collect_returns _ _ _ "" Ec) as [Hall _].
      destruct (Hall st Hin) as [s Hs]. congruence.
    + by destruct e, e'.
Qed.

Lemma pod_entry_returns (p : pod datetime) info :
  pod_entry strftime p = Returns info ->
  p_name info = pod_meta_name p
  /\ p_namespace info = pod_meta_namespace p
  /\ p_status info = pod_phase p
  /\ p_containers info = map (reported (visited p)) (pod_spec_containers p)
  /\ p_creation_timestamp info = option_map strftime (pod_creation_timestamp p).
Proof.
  unfold pod_entry.
  destruct (collect (visited p) ∅) as [m|e] eqn:Ec; [|discriminate].
  intros [= <-]. simpl.
  split; [done|]. split; [done|]. split; [done|].
  split; [|by destruct (pod_creation_timestamp p)].
  apply map_ext. intros name. unfold container_entry, reported.
  destruct (collect_returns _ _ _ name Ec) as [_ ->].
  destruct (last (filter _ (visited p))); [done|].
  by rewrite lookup_empty.
Qed.

(** X19: when the pod list holds a pod with a container status that has
    no state, [get_pods] raises [AttributeError]: it does not report the
    container as 'Unknown'. *)
Theorem stateless_status_raises (items : list (pod datetime)) :
  (exists p, p ∈ items /\ stateless p) ->
  get_pods strftime items = Raises AttributeError.
Proof.
  induction items as [|p items IH]; intros (q & Hin & Hq).
  - by apply elem_of_nil in Hin.
  - simpl. destruct (pod_entry strftime p) as [info|e] eqn:Ep;
      [|by destruct e].
    apply elem_of_cons in Hin as [->|Hin].
    + apply (pod_entry_raises p AttributeError) in Hq. congruence.
    + rewrite IH; [done|]. by exists q.
Qed.

(** X20: when [get_pods] returns, it lists the pods in order, each with
    its name, namespace, phase and formatted creation time, and with one
    entry per container of the pod spec, in order: the readiness and
    state of the last status of that name, or not ready and 'Unknown'
    when no status has that name. *)
Theorem get_pods_lists (items : list (pod datetime)) (pods : list pod_info) :
  get_pods strftime items = Returns pods ->
  Forall2 (fun p info =>
             p_name info = pod_meta_name p
             /\ p_namespace info = pod_meta_namespace p
             /\ p_status info = pod_phase p
             /\ p_containers info
                = map (reported (visited p)) (pod_spec_containers p)
             /\ p_creation_timestamp info
                = option_map strftime (pod_creation_timestamp p))
          items pods.
Proof.
  revert pods. induction items as [|p items IH]; intros pods H; simpl in H.
  - injection H as <-. constructor.
  - destruct (pod_entry strftime p) as [info|e] eqn:Ep; [|discriminate].
    destruct (get_pods strftime items) as [rest|e]; [|discriminate].
    injection H as <-. constructor; [by apply pod_entry_returns|by apply IH].
Qed.

(** X21: a container of the pod spec that has no status of its name is
    listed as not ready with status 'Unknown'. *)
Theorem container_without_status (p : pod datetime) (info : pod_info)
    (name : string) :
  pod_entry strftime p = Returns info ->
  name ∈ pod_spec_containers p ->
  (forall st, st ∈ visited p -> cs_name st <> name) ->
  {| c_name := name; c_ready := false; c_status := "Unknown" |}
    ∈ p_containers info.
Proof.
  intros Hret Hin Hnone.
  destruct (pod_entry_returns p info Hret) as (_ & _ & _ & -> & _).
  apply list_elem_of_In, in_map_iff. exists name.
  split; [|by apply list_elem_of_In]. unfold reported.
  destruct (last (filter _ (visited p))) as [st|] eqn:El; [|done].
  apply last_Some_elem_of, list_elem_of_filter in El as [Hn Hst].
  by destruct (Hnone st Hst).
Qed.

End Pods.

Lemma stateless_status_raises_witness :
  get_pods (fun t : string => t) [web_pod; broken_pod]
  = Raises AttributeError.
Proof.
  apply stateless_status_raises. exists broken_pod. split.
  - apply elem_of_cons. right. apply elem_of_cons. by left.
  - eexists. split; [apply elem_of_cons; by left|reflexivity].
Defined.

Lemma get_pods_lists_witness :
  Forall2 (fun p info =>
             p_name info = pod_meta_name p
             /\ p_namespace info = pod_meta_namespace p
             /\ p_status info = pod_phase p
             /\ p_containers info
                = map (reported (visited p)) (pod_spec_containers p)
             /\ p_creation_timestamp info
                = option_map (fun t : string => t) (pod_creation_timestamp p))
          [web_pod] [web_info].
Proof.
  apply (get_pods_lists (fun t : string => t) [web_pod] [web_info]).
  reflexivity.
Defined.

Lemma container_without_status_witness :
  {| c_name := "sidecar"; c_ready := false; c_status := "Unknown" |}
    ∈ p_containers web_info.
Proof.
  apply (container_without_status (fun t : string => t) web_pod web_info
           "sidecar").
  - reflexivity.
  - apply elem_of_cons. right. apply elem_of_cons. by left.
  - intros st Hst. simpl in Hst.
    apply elem_of_cons in Hst as [->|Hst]; [discriminate|].
    apply elem_of_cons in Hst as [->|Hst]; [discriminate|].
    by apply elem_of_nil in Hst.
Defined.

End ListingSpec.

(** ** The process: one step at a time *)

Module ProcessFacts.
Import PyStr Parser Terms Process.
Local Open Scope list_scope.

Lemma registered_iff pod W :
  registered pod W = true <-> is_Some (active_streams W !! pod).
Proof. unfold registered. apply bool_decide_eq_true. Qed.

Lemma unregistered_iff pod W :
  registered pod W = false <-> active_streams W !! pod = None.
Proof.
  unfold registered. rewrite bool_decide_eq_false.
  rewrite eq_None_not_Some. tauto.
Qed.

Lemma stop_threads pod W : threads (snd (stop_log_stream pod W)) = threads W.
Proof. unfold stop_log_stream. by destruct (registered pod W). Qed.

Lemma stop_sink pod W : sink (snd (stop_log_stream pod W)) = sink W.
Proof. unfold stop_log_stream. by destruct (registered pod W). Qed.

Lemma stop_streams pod W :
  active_streams (snd (stop_log_stream pod W)) = delete pod (active_streams W).
Proof.
  unfold stop_log_stream. destruct (registered pod W) eqn:E; [done|].
  apply unregistered_iff in E. simpl. by rewrite delete_id.
Qed.

Lemma start_appends ns pod cont src sio spawn W :
  threads (snd (stream_pod_logs ns pod cont src sio spawn W))
  = threads W ++
    [{| pod_name := pod; namespace := ns; container := cont;
        socketio := sio; log_count := 0; pending := src;
        state := match spawn with None => Running | Some _ => Created end |}].
Proof.
  unfold stream_pod_logs. cbn [snd threads].
  destruct (registered pod W); by rewrite ?stop_threads.
Qed.

Lemma start_streams ns pod cont src sio spawn W :
  active_streams (snd (stream_pod_logs ns pod cont src sio spawn W))
  = <[pod := length (threads W)]> (active_streams W).
Proof.
  unfold stream_pod_logs. cbn [snd active_streams].
  destruct (registered pod W); [|done].
  rewrite stop_threads, stop_streams. apply insert_delete_eq.
Qed.

Lemma start_sink ns pod cont src sio spawn W :
  sink (snd (stream_pod_logs ns pod cont src sio spawn W)) = sink W.
Proof.
  unfold stream_pod_logs. cbn [snd sink].
  destruct (registered pod W); by rewrite ?stop_sink.
Qed.

Lemma start_outcome ns pod cont src sio spawn W :
  fst (stream_pod_logs ns pod cont src sio spawn W) = spawn.
Proof. reflexivity. Qed.

Lemma counted_same wk :
  state wk = Running -> counted wk (log_count wk) (pending wk) = wk.
Proof. destruct wk; simpl; by intros ->. Qed.

(** When its prints and its emit return, a line of a worker with a sink
    gets through the loop body: the line is counted and its record is
    delivered. *)
Lemma process_line_through E t wk log_line rest W :
  line_passes E (pod_name wk) (namespace wk) (container wk)
              (S (log_count wk)) log_line ->
  socketio wk = true ->
  process_line E t wk log_line rest W
  = Through
      (with_event (Thread t) (record_of wk log_line)
         (with_thread t (counted wk (S (log_count wk)) rest) W)).
Proof.
  intros (Hdebug & Hemit & Hdeliver & Hfifty) Hsio.
  unfold process_line, record_of.
  rewrite Hsio. destruct (parse log_line) as [timestamp message].
  cbn [fst snd] in *. rewrite Hemit, Hdeliver.
  destruct (S (log_count wk) =? 1)%nat eqn:E1.
  - apply Nat.eqb_eq in E1. rewrite (Hdebug E1).
    destruct (S (log_count wk) mod 50 =? 0)%nat eqn:E50; [|done].
    apply Nat.eqb_eq in E50. by rewrite (Hfifty E50).
  - destruct (S (log_count wk) mod 50 =? 0)%nat eqn:E50; [|done].
    apply Nat.eqb_eq in E50. by rewrite (Hfifty E50).
Qed.

Lemma all_lines_pass E pod ns cont lines : forall count,
  prints_all E -> delivers_all E -> lines_pass E pod ns cont count lines.
Proof.
  induction lines as [|l lines IH]; intros count Hp Hd; [done|].
  split; [|by apply IH]. by repeat split.
Qed.

Lemma turns_deliver E last lines : forall W t wk,
  lines_pass E (pod_name wk) (namespace wk) (container wk)
             (log_count wk) lines ->
  threads W !! t = Some wk -> state wk = Running -> socketio wk = true ->
  pending wk = feed lines last ->
  is_Some (active_streams W !! pod_name wk) ->
  run E (repeat (Turn t) (length lines)) W
  = {| active_streams := active_streams W;
       threads :=
         <[t := counted wk (log_count wk + length lines) last]> (threads W);
       sink := sink W ++ map (fun l => (Thread t, record_of wk l)) lines |}.
Proof.
  induction lines as [|l lines IH];
    intros W t wk Hpass Ht Hrun Hsio Hsrc Hreg.
  - simpl in *. rewrite app_nil_r, Nat.add_0_r, <- Hsrc.
    rewrite counted_same by done. rewrite list_insert_id by done.
    by destruct W.
  - simpl in Hsrc. destruct Hpass as [Hl Hrest].
    cbn [length repeat run fold_left].
    change (fold_left (perform E) ?s ?X) with (run E s X).
    assert (perform E W (Turn t)
            = with_event (Thread t) (record_of wk l)
                (with_thread t (counted wk (S (log_count wk))
                                        (feed lines last)) W)) as ->.
    { cbn [perform]. rewrite Ht. unfold iteration. rewrite Hrun, Hsrc.
      apply registered_iff in Hreg. rewrite Hreg.
      by rewrite process_line_through. }
    rewrite (IH _ t (counted wk (S (log_count wk)) (feed lines last)));
      cbn [threads sink active_streams with_event with_thread
           state socketio pending pod_name counted log_count]; try done.
    + rewrite list_insert_insert_eq, <- app_assoc.
      by rewrite Nat.add_succ_r.
    + apply list_lookup_insert_eq. by eapply lookup_lt_Some.
Qed.

(** The turn in which the source raises, with a sink that takes the
    error event. *)
Lemma turn_raises E W t wk msg :
  deliver E (error msg) = None ->
  threads W !! t = Some wk -> state wk = Running -> socketio wk = true ->
  pending wk = Streams.Fails msg ->
  perform E W (Turn t)
  = {| active_streams := delete (pod_name wk) (active_streams W);
       threads := <[t := finish wk]> (threads W);
       sink := sink W ++ [(Thread t, error msg)] |}.
Proof.
  intros Hd Ht Hrun Hsio Hsrc. cbn [perform]. rewrite Ht.
  unfold iteration. rewrite Hrun, Hsrc. unfold recover.
  rewrite Hsio, Hd. cbn [threads with_event]. rewrite Ht.
  unfold with_thread. cbn [active_streams threads sink].
  destruct (registered (pod_name wk) _) eqn:Er; [reflexivity|].
  apply unregistered_iff in Er. cbn [active_streams] in Er.
  by rewrite delete_id.
Qed.

(** When stdout cannot take the first line of a worker, the line is not
    delivered: the worker reports the exception, takes its pod out of the
    registry and returns. *)
Lemma first_line_unprintable E W t wk log_line rest msg :
  print E (debug_text log_line) = Some msg -> deliver E (error msg) = None ->
  threads W !! t = Some wk -> state wk = Running -> socketio wk = true ->
  log_count wk = 0%nat -> pending wk = Streams.Yields log_line rest ->
  is_Some (active_streams W !! pod_name wk) ->
  let W' := perform E W (Turn t) in
  sink W' = sink W ++ [(Thread t, error msg)]
  /\ active_streams W' !! pod_name wk = None
  /\ alive t W' = false.
Proof.
  intros Hp Hd Ht Hrun Hsio Hcount Hsrc Hreg W'. subst W'.
  cbn [perform]. rewrite Ht. unfold iteration. rewrite Hrun, Hsrc.
  rewrite (proj2 (registered_iff _ _) Hreg).
  unfold process_line. rewrite Hcount. cbn [Nat.eqb]. rewrite Hp.
  unfold recover. rewrite Hsio, Hd.
  cbn [threads with_event with_thread active_streams sink].
  assert (t < length (threads W))%nat as Hlt by (by eapply lookup_lt_Some).
  rewrite list_lookup_insert_eq by done.
  unfold alive, with_thread. cbn [threads sink active_streams].
  rewrite list_insert_insert_eq, list_lookup_insert_eq by done.
  split; [done|]. split; [|done].
  rewrite (proj2 (registered_iff _ _)) by done. apply lookup_delete_eq.
Qed.

Example unprintable_line_ends_stream :
  let W :=
    run seven_bit [Turn 0%nat]
      (snd (stream_pod_logs (Some "ns") "pod1" None
              (Streams.Yields (String (ascii_of_nat 233) "t")
                              (Streams.Yields "b" Streams.Exhausted))
              true None initial)) in
  sink W = [(Thread 0%nat, error "'ascii' codec can't encode character")]
  /\ active_streams W !! "pod1" = None /\ alive 0%nat W = false.
Proof. vm_compute. auto. Qed.

Lemma with_thread_names t wk wk' W :
  threads W !! t = Some wk -> pod_name wk' = pod_name wk ->
  names (with_thread t wk' W) = names W.
Proof.
  intros Ht Hn. unfold names, with_thread. cbn [threads].
  change (map pod_name ?l) with (pod_name <$> l).
  rewrite list_fmap_insert, Hn. apply list_insert_id.
  rewrite list_lookup_fmap. unfold tid in *. by rewrite Ht.
Qed.

Lemma recover_names E t wk msg W : names (recover E t wk msg W) = names W.
Proof.
  assert (forall W0, names (match threads W0 !! t with
                            | Some wk' => with_thread t (finish wk') W0
                            | None => W0
                            end) = names W0) as Hret.
  { intros W0. destruct (threads W0 !! t) as [wk'|] eqn:Et; [|done].
    by apply (with_thread_names t wk'). }
  unfold recover. destruct (socketio wk); [destruct (deliver E _)|];
    by rewrite Hret.
Qed.

Lemma recover_streams E t wk msg W :
  active_streams (recover E t wk msg W) = active_streams W
  \/ active_streams (recover E t wk msg W)
     = delete (pod_name wk) (active_streams W).
Proof.
  assert (forall W0, active_streams (match threads W0 !! t with
                                     | Some wk' => with_thread t (finish wk') W0
                                     | None => W0
                                     end) = active_streams W0) as Hret.
  { intros W0. by destruct (threads W0 !! t). }
  unfold recover. destruct (socketio wk); [destruct (deliver E _)|];
    rewrite Hret; cbn [active_streams with_event]; try (by left);
    (destruct (registered (pod_name wk) _); [by right|by left]).
Qed.

(** What a line does to the state reached when the body is left. *)
Lemma process_line_state E t wk log_line rest W :
  threads W !! t = Some wk ->
  exists W', (process_line E t wk log_line rest W = Through W'
              \/ exists msg, process_line E t wk log_line rest W
                             = Raised msg W')
             /\ names W' = names W /\ active_streams W' = active_streams W.
Proof.
  intros Ht.
  assert (names (with_thread t (counted wk (S (log_count wk)) rest) W)
          = names W) as Hn by (by apply (with_thread_names t wk)).
  unfold process_line.
  destruct (if (S (log_count wk) =? 1)%nat then _ else _) as [msg|];
    [eexists; split; [right; by eexists|done]|].
  destruct (parse log_line) as [timestamp message].
  destruct (socketio wk); [|eexists; split; [by left|done]].
  destruct (print E (emitting_text _ _)) as [msg|];
    [eexists; split; [right; by eexists|done]|].
  destruct (deliver E _) as [msg|];
    [eexists; split; [right; by eexists|done]|].
  destruct (if (S (log_count wk) mod 50 =? 0)%nat then _ else _) as [msg|];
    eexists; (split; [by (left + (right; eexists))|done]).
Qed.

Lemma iteration_names E t wk W :
  threads W !! t = Some wk -> names (iteration E t wk W) = names W.
Proof.
  intros Ht. unfold iteration. destruct (state wk); try done.
  destruct (pending wk) as [|msg|log_line rest].
  - by apply (with_thread_names t wk).
  - apply recover_names.
  - destruct (registered (pod_name wk) W);
      [|by apply (with_thread_names t wk)].
    destruct (process_line_state E t wk log_line rest W Ht)
      as (W' & [-> | [msg ->]] & Hn & _); [done|].
    by rewrite recover_names.
Qed.

Lemma iteration_streams E t wk W :
  threads W !! t = Some wk ->
  active_streams (iteration E t wk W) = active_streams W
  \/ active_streams (iteration E t wk W)
     = delete (pod_name wk) (active_streams W).
Proof.
  intros Ht. unfold iteration. destruct (state wk); try (by left).
  destruct (pending wk) as [|msg|log_line rest]; [by left| |].
  - apply recover_streams.
  - destruct (registered (pod_name wk) W); [|by left].
    destruct (process_line_state E t wk log_line rest W Ht)
      as (W' & [-> | [msg ->]] & _ & Hs); [by left|].
    rewrite <- Hs. apply recover_streams.
Qed.

Lemma handles_by_name W :
  handles_valid W
  <-> forall pod t, active_streams W !! pod = Some t ->
                    names W !! t = Some pod.
Proof.
  unfold handles_valid, names.
  change (map pod_name ?l) with (pod_name <$> l).
  split; intros H pod t Hl; specialize (H pod t Hl); unfold tid in *.
  - destruct H as (wk & Hwk & <-). by rewrite list_lookup_fmap, Hwk.
  - rewrite list_lookup_fmap in H.
    destruct (threads W !! t) as [wk|]; [|done].
    injection H as <-. by exists wk.
Qed.

Lemma perform_keeps_handles E W a :
  handles_valid W -> handles_valid (perform E W a).
Proof.
  rewrite !handles_by_name. intros Hv.
  destruct a as [ns pod cont src sio spawn|pod|t]; cbn [perform].
  - intros p t. unfold names. rewrite start_streams, start_appends, map_app.
    destruct (decide (pod = p)) as [->|Hne].
    + rewrite lookup_insert_eq. intros [= <-].
      rewrite <- (length_map pod_name). by apply list_lookup_middle.
    + rewrite lookup_insert_ne by done. intros H.
      by apply lookup_app_l_Some, Hv.
  - intros p t. unfold names. rewrite stop_streams, stop_threads.
    intros H. apply lookup_delete_Some in H as [_ H]. by apply Hv.
  - destruct (threads W !! t) as [wk|] eqn:Et; [|done].
    intros p t0. rewrite iteration_names by done.
    destruct (iteration_streams E t wk W Et) as [->| ->]; [apply Hv|].
    intros H. apply lookup_delete_Some in H as [_ H]. by apply Hv.
Qed.

End ProcessFacts.

(** ** The process: the properties that need a console that works *)

Module ProcessSpec.
Import PyStr Parser Terms Process ProcessFacts.
Local Open Scope list_scope.

Lemma run_app E s1 s2 W : run E (s1 ++ s2) W = run E s2 (run E s1 W).
Proof. apply fold_left_app. Qed.

(** C8: a worker started on a source that yields three lines and then
    raises, in a process where stdout takes what the loop prints for
    these lines (the debug text of the first line and the emitting text
    of each line) and the sink takes the events.  In its first four turns
    the worker delivers the three [log_update] events in source order and
    then one [error] event with the message of the exception; after that
    its pod is not registered and the worker has returned. *)
Theorem three_lines_then_error (E : console) (ns : option string)
    (pod : string) (cont : option string) (l1 l2 l3 msg : string)
    (W : world) :
  print E (debug_text l1) = None ->
  (forall l, l ∈ [l1; l2; l3] ->
     print E (emitting_text (fst (parse l)) (snd (parse l))) = None
     /\ deliver E (log_update pod ns cont (snd (parse l)) (fst (parse l)))
        = None) ->
  deliver E (error msg) = None ->
  let t := length (threads W) in
  let started :=
    snd (stream_pod_logs ns pod cont
           (Streams.Yields l1 (Streams.Yields l2
              (Streams.Yields l3 (Streams.Fails msg)))) true None W) in
  let done := run E [Turn t; Turn t; Turn t; Turn t] started in
  sink done
  = sink W ++
    [(Thread t, log_update pod ns cont (snd (parse l1)) (fst (parse l1)));
     (Thread t, log_update pod ns cont (snd (parse l2)) (fst (parse l2)));
     (Thread t, log_update pod ns cont (snd (parse l3)) (fst (parse l3)));
     (Thread t, error msg)]
  /\ active_streams done !! pod = None
  /\ alive t done = false.
Proof.
  intros Hdebug Hlines Herror t started done.
  set (wk := {| pod_name := pod; namespace := ns; container := cont;
                socketio := true; log_count := 0;
                pending := feed [l1; l2; l3] (Streams.Fails msg);
                state := Running |}).
  assert (lines_pass E pod ns cont 0 [l1; l2; l3]) as Hpass.
  { assert (forall count l, l ∈ [l1; l2; l3] ->
              (count = 1%nat -> print E (debug_text l) = None) ->
              (count mod 50 <> 0)%nat ->
              line_passes E pod ns cont count l) as Hone.
    { intros count l Hl Hd H50. destruct (Hlines l Hl) as [He Hs].
      split; [exact Hd|]. split; [exact He|]. split; [exact Hs|].
      intros H0. by destruct H50. }
    split; [|split; [|split; [|exact I]]].
    - apply (Hone 1%nat l1); [rewrite !elem_of_cons; tauto|done|].
      cbn. discriminate.
    - apply (Hone 2%nat l2); [rewrite !elem_of_cons; tauto| |].
      + intros H. discriminate H.
      + cbn. discriminate.
    - apply (Hone 3%nat l3); [rewrite !elem_of_cons; tauto| |].
      + intros H. discriminate H.
      + cbn. discriminate. }
  assert (threads started !! t = Some wk) as Ht.
  { unfold started. rewrite start_appends. by apply list_lookup_middle. }
  assert (is_Some (active_streams started !! pod)) as Hreg.
  { unfold started. rewrite start_streams, lookup_insert_eq. by eexists. }
  assert (sink started = sink W) as Hsink by apply start_sink.
  assert (t < length (threads started))%nat as Hlt
    by (by eapply lookup_lt_Some).
  subst done. clearbody started.
  change [Turn t; Turn t; Turn t; Turn t]
    with (repeat (Turn t) (length [l1; l2; l3]) ++ [Turn t]).
  rewrite run_app.
  rewrite (turns_deliver E (Streams.Fails msg) [l1; l2; l3] started t wk)
    by done.
  cbn [run fold_left].
  rewrite (turn_raises E _ t (counted wk (0 + 3) (Streams.Fails msg)) msg);
    [|done|by apply list_lookup_insert_eq|reflexivity..].
  unfold alive. cbn [sink active_streams threads].
  rewrite list_insert_insert_eq, list_lookup_insert_eq by done.
  rewrite Hsink, <- app_assoc. split; [reflexivity|].
  split; [apply lookup_delete_eq|reflexivity].
Qed.

Lemma three_lines_then_error_witness :
  let done :=
    run seven_bit [Turn 0%nat; Turn 0%nat; Turn 0%nat; Turn 0%nat]
      (snd (stream_pod_logs (Some "ns") "pod1" None
              (Streams.Yields "a" (Streams.Yields "b"
                 (Streams.Yields "c" (Streams.Fails "boom")))) true None
              initial)) in
  sink done
  = [(Thread 0%nat, log_update "pod1" (Some "ns") None "a" None);
     (Thread 0%nat, log_update "pod1" (Some "ns") None "b" None);
     (Thread 0%nat, log_update "pod1" (Some "ns") None "c" None);
     (Thread 0%nat, error "boom")]
  /\ active_streams done !! "pod1" = None
  /\ alive 0%nat done = false.
Proof.
  apply (three_lines_then_error seven_bit (Some "ns") "pod1" None
           "a" "b" "c" "boom" initial).
  - reflexivity.
  - intros l Hl. rewrite !elem_of_cons, elem_of_nil in Hl.
    destruct Hl as [->|[->|[->|[]]]]; split; reflexivity.
  - reflexivity.
Defined.

(** X7: whatever requests and turns follow one another from the empty
    state, on any console and whether or not the threads could be
    started, every handle in [active_streams] is a thread object that
    [stream_pod_logs] created for the pod it is registered under. *)
Theorem handles_always_valid (E : console) (schedule : list action) :
  handles_valid (run E schedule initial).
Proof.
  assert (forall W, handles_valid W -> handles_valid (run E schedule W)) as H.
  { induction schedule as [|a schedule IH]; intros W Hv; [done|].
    apply IH, perform_keeps_handles, Hv. }
  apply H. intros pod t Hl. simpl in Hl. by rewrite lookup_empty in Hl.
Qed.

(** X13: on a console where every [print] and every [emit] returns, a
    worker with a sink whose thread started and whose pod stays
    registered delivers every line of its source, in source order and
    nothing else; when the source ends the worker returns, and its pod
    is still registered to it. *)
Theorem stream_to_the_end (E : console) (ns : option string) (pod : string)
    (cont : option string) (lines : list string) (W : world) :
  prints_all E -> delivers_all E ->
  let t := length (threads W) in
  let W' :=
    run E (repeat (Turn t) (length lines) ++ [Turn t])
        (snd (stream_pod_logs ns pod cont (feed lines Streams.Exhausted)
                true None W)) in
  sink W'
  = sink W ++
    map (fun l => (Thread t,
                   log_update pod ns cont (snd (parse l)) (fst (parse l))))
        lines
  /\ alive t W' = false
  /\ active_streams W' !! pod = Some t.
Proof.
  intros Hp Hd t W'. subst W'.
  set (started := snd (stream_pod_logs ns pod cont
                         (feed lines Streams.Exhausted) true None W)).
  set (wk := {| pod_name := pod; namespace := ns; container := cont;
                socketio := true; log_count := 0;
                pending := feed lines Streams.Exhausted;
                state := Running |}).
  assert (threads started !! t = Some wk) as Ht.
  { unfold started. rewrite start_appends. by apply list_lookup_middle. }
  assert (active_streams started !! pod = Some t) as Hreg.
  { unfold started. by rewrite start_streams, lookup_insert_eq. }
  assert (sink started = sink W) as Hsink by apply start_sink.
  assert (t < length (threads started))%nat as Hlt
    by (by eapply lookup_lt_Some).
  clearbody started. rewrite run_app.
  rewrite (turns_deliver E Streams.Exhausted lines started t wk)
    by (done || by eexists || by apply all_lines_pass).
  cbn [run fold_left perform threads].
  rewrite list_lookup_insert_eq by done.
  unfold iteration, alive, with_thread.
  cbn [state counted pending sink threads active_streams].
  rewrite list_insert_insert_eq, list_lookup_insert_eq by done.
  by rewrite Hsink.
Qed.

Lemma stream_to_the_end_witness :
  let W' :=
    run quiet [Turn 0%nat; Turn 0%nat; Turn 0%nat]
      (snd (stream_pod_logs (Some "ns") "pod1" None
              (Streams.Yields "a" (Streams.Yields "b" Streams.Exhausted))
              true None initial)) in
  sink W'
  = [(Thread 0%nat, log_update "pod1" (Some "ns") None "a" None);
     (Thread 0%nat, log_update "pod1" (Some "ns") None "b" None)]
  /\ alive 0%nat W' = false
  /\ active_streams W' !! "pod1" = Some 0%nat.
Proof.
  apply (stream_to_the_end quiet (Some "ns") "pod1" None ["a"; "b"] initial).
  - intros text. reflexivity.
  - intros e. reflexivity.
Defined.



(** X16: a [start_logs] message for a non-empty pod, with a sink that
    takes every event.  The handler emits the notice that the stream
    starts, with no timestamp and with the namespace of the message
    ('default' when the key is absent, none when it holds a null), and
    registers the pod to a new thread object.  When the thread starts it
    is running and nothing else is emitted; when [thread.start()] raises,
    the handler also emits an [error] event with the message of the
    exception, and the pod stays registered to a thread that was never
    started.  No exception leaves the handler. *)
Theorem start_request_registers (E : console) (data : request)
    (pod : string) (src : Streams.source) (spawn : option string)
    (W : world) :
  req_pod data = Text pod -> pod <> "" -> delivers_all E ->
  let t := length (threads W) in
  let notice :=
    log_update pod (namespace_of data) (data_get (req_container data))
               ("Starting log stream for " +:+ pod +:+ "...") None in
  let thread (s : status) :=
    {| pod_name := pod; namespace := namespace_of data;
       container := data_get (req_container data); socketio := true;
       log_count := 0; pending := src; state := s |} in
  let W' := snd (handle_start_logs E data src spawn W) in
  fst (handle_start_logs E data src spawn W) = None
  /\ active_streams W' !! pod = Some t
  /\ match spawn with
     | None =>
         sink W' = sink W ++ [(Handler, notice)]
         /\ threads W' !! t = Some (thread Running)
     | Some msg =>
         sink W' = sink W ++ [(Handler, notice); (Handler, error msg)]
         /\ threads W' !! t = Some (thread Created)
     end.
Proof.
  intros Hpod Hne Hd t notice thread W'. subst W'.
  unfold handle_start_logs. rewrite Hpod. cbn [data_get].
  assert (truthy pod = true) as -> by (by destruct pod).
  rewrite Hd.
  set (W1 := with_event Handler _ W).
  assert (threads W1 = threads W) as Hth by reflexivity.
  assert (sink W1 = sink W ++ [(Handler, notice)]) as Hsk by reflexivity.
  pose proof (start_streams (namespace_of data) pod (data_get (req_container data))
                src true spawn W1) as Hs.
  pose proof (start_appends (namespace_of data) pod (data_get (req_container data))
                src true spawn W1) as Hts.
  pose proof (start_sink (namespace_of data) pod (data_get (req_container data))
                src true spawn W1) as Hss.
  destruct (stream_pod_logs _ _ _ _ _ _ W1) as [out W2] eqn:Es.
  assert (out = spawn) as -> by (by inversion Es).
  cbn [snd] in Hs, Hts, Hss. rewrite Hth in Hs, Hts.
  destruct spawn as [msg|].
  - rewrite Hd. cbn [fst snd with_event active_streams sink threads].
    rewrite Hs, lookup_insert_eq, Hss, Hsk, Hts, <- app_assoc.
    split; [done|]. split; [done|]. split; [done|].
    by apply list_lookup_middle.
  - cbn [fst snd]. rewrite Hs, lookup_insert_eq, Hss, Hsk, Hts.
    split; [done|]. split; [done|]. split; [done|].
    by apply list_lookup_middle.
Qed.

Lemma start_request_registers_witness :
  let data := {| req_namespace := Null; req_pod := Text "pod2";
                 req_container := Text "web" |} in
  let W' :=
    snd (handle_start_logs quiet data Streams.Exhausted
           (Some "can't start new thread") initial) in
  fst (handle_start_logs quiet data Streams.Exhausted
         (Some "can't start new thread") initial) = None
  /\ active_streams W' !! "pod2" = Some 0%nat
  /\ sink W'
     = [(Handler, log_update "pod2" None (Some "web")
                    "Starting log stream for pod2..." None);
        (Handler, error "can't start new thread")]
     /\ threads W' !! 0%nat
        = Some {| pod_name := "pod2"; namespace := None;
                  container := Some "web"; socketio := true;
                  log_count := 0; pending := Streams.Exhausted;
                  state := Created |}.
Proof.
  exact (start_request_registers quiet
           {| req_namespace := Null; req_pod := Text "pod2";
              req_container := Text "web" |} "pod2" Streams.Exhausted
           (Some "can't start new thread") initial
           eq_refl ltac:(discriminate) (fun _ => eq_refl)).
Defined.

End ProcessSpec.
